(** * A cooperative scheduler with an asynchronous, closable queue

    Shallow embedding of [yproducer4.py]: the callback scheduler
    ([Scheduler]), the coroutine adapter ([Task]), the queue
    ([AsyncQueue]) built on top of them and the programs of the script
    that run on them ([producer], [consumer], [countdown], [countup]),
    followed by the properties of these operations.

    Conventions of the embedding.
    - Python object references that the scheduler stores and later calls
      (the entries of [ready], [sleeping], the two readiness tables, the
      queue's [waiting] deque and the [current] attribute) are values of
      type [callable]: [None], a [Task] object (by identity) or a plain
      function (by identity).
    - [time.time()] is an input: every operation that reads the clock takes
      the reading as an argument; the event loop keeps the latest reading
      in the [clock] field of the world.  Instants are integers (ticks).
    - [select] is an input: the host's answers are a list of events that
      the loop consumes one per call.  A socket is the number that
      identifies it.
    - A raised exception is an explicit outcome that carries the state at
      the time of the raise. *)

From Stdlib Require Import ZArith Lia.
From stdpp Require Import base list gmap strings pretty sorting.

Local Open Scope Z_scope.
Local Open Scope nat_scope.

(** ** Values, exceptions and object references *)

Inductive value :=
| VNone
| VInt (n : Z)
| VStr (s : string).

Inductive exn :=
| QueueClosed
| TypeError
| KeyError
| IndexError
| RuntimeError.

Inductive callable :=
| PyNone
| TaskRef (t : nat)
| FuncRef (f : nat).

(** Truth value of an object reference ([if sched.current:]): only [None]
    is false; tasks and functions define neither [__bool__] nor [__len__]. *)
Definition truthy (c : callable) : bool :=
  match c with
  | PyNone => false
  | _ => true
  end.

Inductive outcome :=
| Returns
| Raises (e : exn).

(** ** [heapq] on a Python list

    The sleeping queue is a plain list managed with [heapq.heappush] and
    [heapq.heappop]; entries are the tuples [(deadline, sequence, func)].
    The four functions below follow the standard library's [heapq] module
    ([heappush], [heappop] and their helpers [_siftdown] and [_siftup]).
    Their loops move a position strictly towards the root or strictly
    towards the leaves, so the position, respectively the length of the
    list, bounds the number of iterations and serves as fuel. *)

Definition entry : Type := Z * nat * callable.

Definition deadline_of (e : entry) : Z := e.1.1.
Definition seq_of (e : entry) : nat := e.1.2.
Definition func_of (e : entry) : callable := e.2.

(** Tuple comparison [a < b]: the first components that differ decide.  Two
    entries of one scheduler never agree on the sequence number, so the
    third component (which has no ordering) is never compared. *)
Definition entry_lt (a b : entry) : bool :=
  if decide (deadline_of a = deadline_of b)
  then bool_decide (seq_of a < seq_of b)
  else bool_decide (deadline_of a < deadline_of b)%Z.

(** [_siftdown]'s loop: [newitem] walks from [pos] towards [startpos],
    parents that are larger move down.  Returns the list and the final
    position of the hole. *)
Fixpoint _siftdown_loop (fuel : nat) (heap : list entry) (newitem : entry)
    (startpos pos : nat) : list entry * nat :=
  match fuel with
  | 0 => (heap, pos)
  | S fuel' =>
      if decide (startpos < pos) then
        let parentpos := (pos - 1) / 2 in
        match heap !! parentpos with
        | Some parent =>
            if entry_lt newitem parent
            then _siftdown_loop fuel' (<[pos := parent]> heap) newitem startpos parentpos
            else (heap, pos)
        | None => (heap, pos)
        end
      else (heap, pos)
  end.

Definition _siftdown (heap : list entry) (startpos pos : nat) : list entry :=
  match heap !! pos with
  | Some newitem =>
      let '(heap', pos') := _siftdown_loop pos heap newitem startpos pos in
      <[pos' := newitem]> heap'
  | None => heap
  end.

Definition heappush (heap : list entry) (item : entry) : list entry :=
  let heap' := heap ++ [item] in
  _siftdown heap' 0 (length heap' - 1).

(** [_siftup]'s loop: the smaller child bubbles up until the hole reaches a
    leaf. *)
Fixpoint _siftup_loop (fuel : nat) (heap : list entry) (endpos pos : nat)
    : list entry * nat :=
  match fuel with
  | 0 => (heap, pos)
  | S fuel' =>
      let childpos := 2 * pos + 1 in
      if decide (childpos < endpos) then
        let rightpos := childpos + 1 in
        let childpos' :=
          if decide (rightpos < endpos) then
            match heap !! childpos, heap !! rightpos with
            | Some l, Some r => if entry_lt l r then childpos else rightpos
            | _, _ => childpos
            end
          else childpos in
        match heap !! childpos' with
        | Some c => _siftup_loop fuel' (<[pos := c]> heap) endpos childpos'
        | None => (heap, pos)
        end
      else (heap, pos)
  end.

Definition _siftup (heap : list entry) (pos : nat) : list entry :=
  let endpos := length heap in
  match heap !! pos with
  | Some newitem =>
      let '(heap', pos') := _siftup_loop endpos heap endpos pos in
      _siftdown (<[pos' := newitem]> heap') pos pos'
  | None => heap
  end.

(** [heappop]: [None] stands for the [IndexError] of popping from an empty
    list. *)
Definition heappop (heap : list entry) : option (entry * list entry) :=
  match last heap with
  | None => None
  | Some lastelt =>
      let heap' := removelast heap in
      match heap' !! 0 with
      | Some returnitem => Some (returnitem, _siftup (<[0 := lastelt]> heap') 0)
      | None => Some (lastelt, heap')
      end
  end.

(** The order that [entry_lt] decides, and the shape [heapq] maintains:
    no entry is smaller than the one at its parent position. *)
Definition key_le (a b : entry) : Prop :=
  (deadline_of a < deadline_of b)%Z
  ∨ (deadline_of a = deadline_of b ∧ seq_of a ≤ seq_of b).

Global Instance callable_inhabited : Inhabited callable := populate PyNone.

Definition heap_inv (h : list entry) : Prop :=
  ∀ i, 0 < i < length h → key_le (h !!! ((i - 1) / 2)) (h !!! i).

(** The shape while [_siftdown] works at position [pos]: only the item
    at [pos] may be smaller than its parent, and the children of [pos] are
    not smaller than the parent of [pos]. *)
Definition heap_inv_except (h : list entry) (pos : nat) : Prop :=
  (∀ i, 0 < i < length h → i ≠ pos → key_le (h !!! ((i - 1) / 2)) (h !!! i))
  ∧ (∀ c, 0 < pos → 0 < c < length h → (c - 1) / 2 = pos →
       key_le (h !!! ((pos - 1) / 2)) (h !!! c)).

(** The shape while [_siftup] moves the hole at [pos] down: below the root
    everything is in order, and once the hole has left the root the whole
    list is. *)
Definition heap_inv_hole (h : list entry) (pos : nat) : Prop :=
  ∀ i, 0 < i < length h → (pos = 0 → (i - 1) / 2 ≠ 0) →
    key_le (h !!! ((i - 1) / 2)) (h !!! i).

(** ** The scheduler *)

Record Scheduler := mkScheduler {
  ready : list callable;
  sleeping : list entry;
  sequence : nat;
  _read_waiting : gmap nat callable;
  _write_waiting : gmap nat callable;
  current : callable
}.

Definition Scheduler_init : Scheduler :=
  mkScheduler [] [] 0 ∅ ∅ PyNone.

Definition set_ready (r : list callable) (s : Scheduler) : Scheduler :=
  mkScheduler r (sleeping s) (sequence s) (_read_waiting s) (_write_waiting s) (current s).

Definition set_current (c : callable) (s : Scheduler) : Scheduler :=
  mkScheduler (ready s) (sleeping s) (sequence s) (_read_waiting s) (_write_waiting s) c.

Definition call_soon (func : callable) (s : Scheduler) : Scheduler :=
  set_ready (ready s ++ [func]) s.

(** [now] is the reading of [time.time()] inside the call. *)
Definition call_later (now delay : Z) (func : callable) (s : Scheduler) : Scheduler :=
  let sequence' := sequence s + 1 in
  let deadline := (now + delay)%Z in
  mkScheduler (ready s) (heappush (sleeping s) (deadline, sequence', func)) sequence'
    (_read_waiting s) (_write_waiting s) (current s).

Definition read_wait (fileno : nat) (func : callable) (s : Scheduler) : Scheduler :=
  mkScheduler (ready s) (sleeping s) (sequence s)
    (<[fileno := func]> (_read_waiting s)) (_write_waiting s) (current s).

Definition write_wait (fileno : nat) (func : callable) (s : Scheduler) : Scheduler :=
  mkScheduler (ready s) (sleeping s) (sequence s)
    (_read_waiting s) (<[fileno := func]> (_write_waiting s)) (current s).

(** The suspension-point helpers, up to their [await switch()]. *)
Definition sleep (now delay : Z) (s : Scheduler) : Scheduler :=
  set_current PyNone (call_later now delay (current s) s).

Definition recv (sock : nat) (s : Scheduler) : Scheduler :=
  set_current PyNone (read_wait sock (current s) s).

Definition send (sock : nat) (s : Scheduler) : Scheduler :=
  set_current PyNone (write_wait sock (current s) s).

Definition accept (sock : nat) (s : Scheduler) : Scheduler :=
  set_current PyNone (read_wait sock (current s) s).

(** The loop of [run] that moves expired timers to the ready queue:
    [[
      while self.sleeping:
          if now > self.sleeping[0][0]:
              self.ready.append(heapq.heappop(self.sleeping)[2])
          else: break
    ]]
    Every iteration removes one entry, so the length of the list bounds the
    number of iterations. *)
Fixpoint wake_loop (fuel : nat) (now : Z) (s : Scheduler) : Scheduler :=
  match fuel with
  | 0 => s
  | S fuel' =>
      match sleeping s !! 0 with
      | Some top =>
          if bool_decide (deadline_of top < now)%Z then
            match heappop (sleeping s) with
            | Some (e, rest) =>
                wake_loop fuel' now
                  (mkScheduler (ready s ++ [func_of e]) rest (sequence s)
                     (_read_waiting s) (_write_waiting s) (current s))
            | None => s
            end
          else s
      | None => s
      end
  end.

Definition wake_sleeping (now : Z) (s : Scheduler) : Scheduler :=
  wake_loop (length (sleeping s)) now s.

(** ** The queue *)

Record AsyncQueue := mkAsyncQueue {
  items : list value;
  waiting : list callable;
  _closed : bool
}.

Definition AsyncQueue_init : AsyncQueue := mkAsyncQueue [] [] false.

Definition close (q : AsyncQueue) (s : Scheduler) : AsyncQueue * Scheduler :=
  let q1 := mkAsyncQueue (items q) (waiting q) true in
  match waiting q1, items q1 with
  | t :: rest, [] => (mkAsyncQueue (items q1) rest true, set_ready (ready s ++ [t]) s)
  | _, _ => (q1, s)
  end.

Definition put (item : value) (q : AsyncQueue) (s : Scheduler)
    : outcome * AsyncQueue * Scheduler :=
  if _closed q then (Raises QueueClosed, q, s)
  else
    let q1 := mkAsyncQueue (items q ++ [item]) (waiting q) (_closed q) in
    match waiting q1 with
    | t :: rest =>
        (Returns, mkAsyncQueue (items q1) rest (_closed q1), set_ready (ready s ++ [t]) s)
    | [] => (Returns, q1, s)
    end.

(** One run of [get] from the head of its loop, which is where the
    coroutine starts and where it continues after [await switch()]. *)
Inductive get_step :=
| GetReturns (v : value)
| GetRaises (e : exn)
| GetAwaits.

Definition get (q : AsyncQueue) (s : Scheduler) : get_step * AsyncQueue * Scheduler :=
  match items q with
  | [] =>
      if _closed q then (GetRaises QueueClosed, q, s)
      else (GetAwaits,
            mkAsyncQueue (items q) (waiting q ++ [current s]) (_closed q),
            set_current PyNone s)
  | v :: rest => (GetReturns v, mkAsyncQueue rest (waiting q) (_closed q), s)
  end.

(** ** Coroutines and tasks *)

(** The body of an [async def], as the tree of its interactions with the
    scheduler and the queue.  [k] is the rest of the body after the
    operation; for the queue operations [h] is the rest of the body when the
    operation raises [QueueClosed] (the [except] clause around it, or
    [Raise QueueClosed] where there is none).  What a socket call returns
    after [recv], [send] and [accept] belongs to the host and is left
    out. *)
Inductive coro :=
| Return
| Raise (e : exn)
| AwaitSwitch (k : coro)
| AwaitSleep (delay : Z) (k : coro)
| AwaitRecv (sock : nat) (k : coro)
| AwaitSend (sock : nat) (k : coro)
| AwaitAccept (sock : nat) (k : coro)
| AwaitPut (item : value) (k : coro) (h : coro)
| AwaitGet (k : value → coro) (h : coro)
| Close (k : coro)
| NewTask (c : coro) (k : coro)
| CallSoon (f : callable) (k : coro)
| CallLater (delay : Z) (f : callable) (k : coro)
| Print (v : value) (k : coro).

(** A coroutine object either is suspended at some point of its body or
    has finished (returned or raised). *)
Inductive cstate :=
| Suspended (c : coro)
| Finished.

(** The global objects of the program: the scheduler [sched], the queue
    [q], the task objects (a task is the index of its coroutine), the
    latest clock reading and what has been printed. *)
Record World := mkWorld {
  sched : Scheduler;
  q : AsyncQueue;
  tasks : list cstate;
  clock : Z;
  stdout : list value
}.

Definition World_init : World :=
  mkWorld Scheduler_init AsyncQueue_init [] 0 [].

Definition set_sched (s : Scheduler) (w : World) : World :=
  mkWorld s (q w) (tasks w) (clock w) (stdout w).

Definition set_queue (qs : AsyncQueue * Scheduler) (w : World) : World :=
  mkWorld qs.2 qs.1 (tasks w) (clock w) (stdout w).

Definition set_task (t : nat) (c : cstate) (w : World) : World :=
  mkWorld (sched w) (q w) (<[t := c]> (tasks w)) (clock w) (stdout w).

Definition set_clock (now : Z) (w : World) : World :=
  mkWorld (sched w) (q w) (tasks w) now (stdout w).

(** [new_task(coro)]: wraps the coroutine in a fresh [Task] and appends
    it to the ready queue. *)
Definition new_task (c : coro) (w : World) : World :=
  mkWorld (set_ready (ready (sched w) ++ [TaskRef (length (tasks w))]) (sched w)) (q w)
    (tasks w ++ [Suspended c]) (clock w) (stdout w).

(** What [coro.send(None)] does: the body runs up to its next
    [await switch()], to its end ([StopIteration]) or to an exception that
    leaves it. *)
Inductive send_result :=
| Yields (k : coro)
| StopIteration
| Propagates (e : exn).

Fixpoint coro_send (c : coro) (w : World) : send_result * World :=
  match c with
  | Return => (StopIteration, w)
  | Raise e => (Propagates e, w)
  | AwaitSwitch k => (Yields k, w)
  | AwaitSleep delay k => (Yields k, set_sched (sleep (clock w) delay (sched w)) w)
  | AwaitRecv sock k => (Yields k, set_sched (recv sock (sched w)) w)
  | AwaitSend sock k => (Yields k, set_sched (send sock (sched w)) w)
  | AwaitAccept sock k => (Yields k, set_sched (accept sock (sched w)) w)
  | AwaitPut item k h =>
      match put item (q w) (sched w) with
      | (Returns, q', s') => coro_send k (set_queue (q', s') w)
      | (Raises _, q', s') => coro_send h (set_queue (q', s') w)
      end
  | AwaitGet k h =>
      match get (q w) (sched w) with
      | (GetReturns v, q', s') => coro_send (k v) (set_queue (q', s') w)
      | (GetRaises _, q', s') => coro_send h (set_queue (q', s') w)
      | (GetAwaits, q', s') => (Yields (AwaitGet k h), set_queue (q', s') w)
      end
  | Close k => coro_send k (set_queue (close (q w) (sched w)) w)
  | NewTask c' k => coro_send k (new_task c' w)
  | CallSoon f k => coro_send k (set_sched (call_soon f (sched w)) w)
  | CallLater delay f k =>
      coro_send k (set_sched (call_later (clock w) delay f (sched w)) w)
  | Print v k =>
      coro_send k (mkWorld (sched w) (q w) (tasks w) (clock w) (stdout w ++ [v]))
  end.

(** [Task.__call__], from [self.coro.send(None)] on: [c] is the point at
    which the coroutine of task [t] is suspended. *)
Definition Task_drive (t : nat) (c : coro) (w1 : World) : outcome * World :=
  match coro_send c w1 with
  | (Yields k, w2) =>
      let w3 := set_task t (Suspended k) w2 in
      if truthy (current (sched w3))
      then (Returns, set_sched (set_ready (ready (sched w3) ++ [TaskRef t]) (sched w3)) w3)
      else (Returns, w3)
  | (StopIteration, w2) => (Returns, set_task t Finished w2)
  | (Propagates e, w2) => (Raises e, set_task t Finished w2)
  end.

(** [Task.__call__].  Sending into a coroutine that has finished raises
    [RuntimeError], which the [except StopIteration] clause lets through. *)
Definition Task_call (t : nat) (w : World) : outcome * World :=
  let w1 := set_sched (set_current (TaskRef t) (sched w)) w in
  match tasks w1 !! t with
  | Some (Suspended c) => Task_drive t c w1
  | _ => (Raises RuntimeError, w1)
  end.

(** ** The event loop *)

(** One answer of the host to a [select] call, with the clock readings
    taken just before and just after it. *)
Record event := mkEvent {
  ev_before : Z;
  ev_read : list nat;
  ev_write : list nat;
  ev_now : Z
}.

Global Instance callable_eq_dec : EqDecision callable.
Proof. solve_decision. Defined.

(** The condition of the outer [while]. *)
Definition busy (s : Scheduler) : bool :=
  bool_decide (ready s ≠ []) || bool_decide (sleeping s ≠ [])
  || bool_decide (_read_waiting s ≠ ∅) || bool_decide (_write_waiting s ≠ ∅).

Definition select_timeout (now : Z) (s : Scheduler) : option Z :=
  match sleeping s !! 0 with
  | Some top =>
      let timeout := (deadline_of top - now)%Z in
      Some (if bool_decide (timeout < 0)%Z then 0%Z else timeout)
  | None => None
  end.

(** [select] reports descriptors among those it was given; with no timeout
    and nothing to report it does not return ([None]). *)
Definition select (rd wr : gmap nat callable) (timeout : option Z) (ev : event)
    : option (list nat * list nat) :=
  let can_read := filter (λ fd, is_Some (rd !! fd)) (ev_read ev) in
  let can_write := filter (λ fd, is_Some (wr !! fd)) (ev_write ev) in
  match timeout, can_read, can_write with
  | None, [], [] => None
  | _, _, _ => Some (can_read, can_write)
  end.

(** [for fd in fds: self.ready.append(table.pop(fd))] *)
Fixpoint pop_all (fds : list nat) (table : gmap nat callable) (rdy : list callable)
    : outcome * gmap nat callable * list callable :=
  match fds with
  | [] => (Returns, table, rdy)
  | fd :: fds' =>
      match table !! fd with
      | Some func => pop_all fds' (delete fd table) (rdy ++ [func])
      | None => (Raises KeyError, table, rdy)
      end
  end.

Inductive poll_result :=
| PollDone (s : Scheduler)
| PollRaises (e : exn) (s : Scheduler)
| PollBlocked.

(** The body of [if not self.ready:]. *)
Definition poll (ev : event) (s : Scheduler) : poll_result :=
  let timeout := select_timeout (ev_before ev) s in
  match select (_read_waiting s) (_write_waiting s) timeout ev with
  | None => PollBlocked
  | Some (can_read, can_write) =>
      match pop_all can_read (_read_waiting s) (ready s) with
      | (Raises e, rd, rdy) =>
          PollRaises e (mkScheduler rdy (sleeping s) (sequence s) rd (_write_waiting s) (current s))
      | (Returns, rd, rdy) =>
          match pop_all can_write (_write_waiting s) rdy with
          | (Raises e, wr, rdy') =>
              PollRaises e (mkScheduler rdy' (sleeping s) (sequence s) rd wr (current s))
          | (Returns, wr, rdy') =>
              PollDone (wake_sleeping (ev_now ev)
                          (mkScheduler rdy' (sleeping s) (sequence s) rd wr (current s)))
          end
      end
  end.

(** How a run of the loop ends: [run] returns, an exception leaves it, the
    host never answers a [select], or the loop is still going when the
    fuel is spent. *)
Inductive run_result :=
| Returned
| Raised (e : exn)
| Blocked
| Running.

Section Loop.

(** The bodies of the plain functions handed to the scheduler, by
    identity. *)
Variable funcs : nat → World → outcome * World.

(** [func()] *)
Definition call (func : callable) (w : World) : outcome * World :=
  match func with
  | PyNone => (Raises TypeError, w)
  | TaskRef t => Task_call t w
  | FuncRef f => funcs f w
  end.

(** [while self.ready: func = self.ready.popleft(); func()] *)
Fixpoint drain (fuel : nat) (w : World) : run_result * World :=
  match ready (sched w) with
  | [] => (Returned, w)
  | func :: rest =>
      match fuel with
      | 0 => (Running, w)
      | S fuel' =>
          match call func (set_sched (set_ready rest (sched w)) w) with
          | (Returns, w') => drain fuel' w'
          | (Raises e, w') => (Raised e, w')
          end
      end
  end.

(** One iteration of the outer [while] of [run]; the events left for
    later iterations are returned too. *)
Definition iteration (fuel : nat) (env : list event) (w : World)
    : run_result * list event * World :=
  match ready (sched w) with
  | [] =>
      match env with
      | [] => (Blocked, env, w)
      | ev :: env' =>
          match poll ev (sched w) with
          | PollBlocked => (Blocked, env, w)
          | PollRaises e s' => (Raised e, env', set_clock (ev_now ev) (set_sched s' w))
          | PollDone s' =>
              let '(r, w') := drain fuel (set_clock (ev_now ev) (set_sched s' w)) in
              (r, env', w')
          end
      end
  | _ :: _ => let '(r, w') := drain fuel w in (r, env, w')
  end.

Fixpoint run (fuel : nat) (env : list event) (w : World) : run_result * World :=
  match fuel with
  | 0 => (Running, w)
  | S fuel' =>
      if busy (sched w) then
        match iteration fuel' env w with
        | (Returned, env', w') => run fuel' env' w'
        | (r, _, w') => (r, w')
        end
      else (Returned, w)
  end.

End Loop.

(** ** Sequences of operations *)

(** The queue operations a task can perform in one step; [OpGet t] is one
    run of the loop of [get] by task [t], which [Task.__call__] has made
    [current]. *)
Inductive op :=
| OpPut (item : value)
| OpGet (t : callable)
| OpClose.

Definition apply_op (o : op) (st : AsyncQueue * Scheduler) : AsyncQueue * Scheduler :=
  match o with
  | OpPut item => let '(_, q', s') := put item st.1 st.2 in (q', s')
  | OpGet t => let '(_, q', s') := get st.1 (set_current t st.2) in (q', s')
  | OpClose => close st.1 st.2
  end.

Definition apply_ops (ops : list op) (st : AsyncQueue * Scheduler) : AsyncQueue * Scheduler :=
  foldl (λ st o, apply_op o st) st ops.

(** Items and waiters are not both present. *)
Definition exclusive (qu : AsyncQueue) : Prop :=
  items qu = [] ∨ waiting qu = [].

(** Every [put] of the sequence finds at most one waiting task. *)
Fixpoint puts_find_le1 (ops : list op) (st : AsyncQueue * Scheduler) : Prop :=
  match ops with
  | [] => True
  | o :: ops' =>
      match o with
      | OpPut _ => length (waiting st.1) ≤ 1
      | _ => True
      end ∧ puts_find_le1 ops' (apply_op o st)
  end.

(** A batch of [call_later(delay, func)] calls, each with the clock reading
    of its call, and a series of passes of the timer loop of [run]. *)
Abbreviation timer_call := (Z * Z * callable)%type (only parsing).

Definition call_later_all (calls : list timer_call) (s : Scheduler) : Scheduler :=
  foldl (λ s c, call_later c.1.1 c.1.2 c.2 s) s calls.

(** The entries that a batch of calls pushes when the counter stands at
    [seq0]. *)
Fixpoint timer_entries (seq0 : nat) (calls : list timer_call) : list entry :=
  match calls with
  | [] => []
  | c :: calls' => ((c.1.1 + c.1.2)%Z, seq0 + 1, c.2) :: timer_entries (seq0 + 1) calls'
  end.

Definition wake_all (nows : list Z) (s : Scheduler) : Scheduler :=
  foldl (λ s now, wake_sleeping now s) s nows.

Definition call_deadline (calls : list timer_call) (i : nat) : Z :=
  match calls !! i with
  | Some c => (c.1.1 + c.1.2)%Z
  | None => 0%Z
  end.

Definition call_func (calls : list timer_call) (i : nat) : callable :=
  match calls !! i with
  | Some c => c.2
  | None => PyNone
  end.

(** Call [i] is due before call [j]: earlier deadline, or the same deadline
    and made earlier. *)
Definition due_before (calls : list timer_call) (i j : nat) : Prop :=
  (call_deadline calls i < call_deadline calls j)%Z
  ∨ (call_deadline calls i = call_deadline calls j ∧ i < j).

(** ** Programs used in the statements *)

(** A consumer that takes one item: it prints the item, or reports the
    closure it observes. *)
Definition consumer_once : coro :=
  AwaitGet (λ item, Print item Return) (Print (VStr "Consuming done") Return).

(** Two consumers and, behind them in the ready queue, a task that closes
    the queue. *)
Definition two_consumers_then_close : World :=
  new_task (Close Return) (new_task consumer_once (new_task consumer_once World_init)).

(** Two consumers and a producer of the single item [x]. *)
Definition two_consumers_one_item (x : value) : World :=
  new_task (AwaitPut x Return (Raise QueueClosed))
    (new_task consumer_once (new_task consumer_once World_init)).

(** A program without plain callbacks. *)
Definition no_funcs : nat → World → outcome * World := λ _ w, (Returns, w).

(** ** Notions used in the further properties *)

(** [n] runs of [get] in a row, with what each of them did. *)
Fixpoint get_n (n : nat) (st : AsyncQueue * Scheduler)
    : list get_step * (AsyncQueue * Scheduler) :=
  match n with
  | 0 => ([], st)
  | S n' =>
      let '(r, q', s') := get st.1 st.2 in
      let '(rs, st') := get_n n' (q', s') in
      (r :: rs, st')
  end.

(** The timers of a scheduler are in order: the sleeping list has the
    shape [heapq] maintains, no two entries carry the same sequence number
    and none carries one beyond the counter. *)
Definition timers_ok (s : Scheduler) : Prop :=
  heap_inv (sleeping s)
  ∧ NoDup (seq_of <$> sleeping s)
  ∧ Forall (λ e, seq_of e ≤ sequence s) (sleeping s).

(** One turn of the inner loop of [run] on the front of the ready queue. *)
Definition turn (funcs : nat → World → outcome * World) (func : callable) (w : World)
    : World :=
  (call funcs func (set_sched (set_ready (drop 1 (ready (sched w))) (sched w)) w)).2.

(** A plain function that prints its own number and returns. *)
Definition logger : nat → World → outcome * World :=
  λ f w, (Returns, mkWorld (sched w) (q w) (tasks w) (clock w)
                     (stdout w ++ [VInt (Z.of_nat f)])).

(** [countdown]: the plain function numbered [n] is [lambda: countdown(n)]. *)
Definition countdown (n : nat) (w : World) : outcome * World :=
  match n with
  | 0 => (Returns, w)
  | S m =>
      (Returns,
       mkWorld (call_later (clock w) 4 (FuncRef m) (sched w)) (q w) (tasks w) (clock w)
         (stdout w ++ [VStr ("Down " +:+ pretty n)]))
  end.

(** The inner function of [countup(stop)]: the plain function numbered [x]
    is [lambda: _run(x)]; [countup(stop)] itself is [_run(0)]. *)
Definition _run (stop x : nat) (w : World) : outcome * World :=
  if decide (x < stop) then
    (Returns,
     mkWorld (call_later (clock w) 1 (FuncRef (S x)) (sched w)) (q w) (tasks w) (clock w)
       (stdout w ++ [VStr ("Up " +:+ pretty x)]))
  else (Returns, w).

(** The host answers every [select] after the pending deadline, which lies
    [delay] past the previous clock reading. *)
Fixpoint timely (delay clock : Z) (env : list event) : Prop :=
  match env with
  | [] => True
  | ev :: env' => (clock + delay < ev_now ev)%Z ∧ timely delay (ev_now ev) env'
  end.

(** The clock after the first [n] answers. *)
Definition clock_after (n : nat) (clock : Z) (env : list event) : Z :=
  default clock (ev_now <$> last (take n env)).

(** The lines [countdown(n)] prints: [n], [n - 1], ..., 1. *)
Fixpoint downs (n : nat) : list value :=
  match n with
  | 0 => []
  | S m => VStr ("Down " +:+ pretty n) :: downs m
  end.

(** The lines [_run(x)] prints when [k] numbers are left below [stop]. *)
Fixpoint ups (k x : nat) : list value :=
  match k with
  | 0 => []
  | S k' => VStr ("Up " +:+ pretty x) :: ups k' (S x)
  end.

(** What [f'{item}'] shows of an item. *)
Definition format (v : value) : string :=
  match v with
  | VNone => "None"
  | VInt n => pretty n
  | VStr s => s
  end.

(** [producer(q, count)] from iteration [n] of its loop on, with [left]
    iterations to go. *)
Fixpoint producer_from (n left : nat) : coro :=
  match left with
  | 0 => Print (VStr "Producer done") (Close Return)
  | S left' =>
      Print (VStr ("Producing " +:+ pretty n))
        (AwaitPut (VInt (Z.of_nat n))
           (AwaitSleep 1 (producer_from (S n) left'))
           (Raise QueueClosed))
  end.

Definition producer (count : nat) : coro := producer_from 0 count.

(** [consumer(q)] with its [while True] loop unrolled [bound] times.  The
    statements about it hold for every [bound] beyond the number of items
    taken, so they do not depend on the unrolling. *)
Fixpoint consumer (bound : nat) : coro :=
  match bound with
  | 0 => Return
  | S bound' =>
      AwaitGet
        (λ item,
           match item with
           | VNone => Return
           | _ => Print (VStr ("Consuming " +:+ format item)) (consumer bound')
           end)
        (Print (VStr "Consuming done") Return)
  end.

(** The lines producer and consumer print for the items [n], ...,
    [n + left - 1]. *)
Fixpoint produced (n left : nat) : list value :=
  match left with
  | 0 => []
  | S left' =>
      VStr ("Producing " +:+ pretty n)
      :: VStr ("Consuming " +:+ pretty n)
      :: produced (S n) left'
  end.

(** ** Properties of the queue operations *)

Lemma put_closed item qu s :
  _closed qu = true → put item qu s = (Raises QueueClosed, qu, s).
Proof. intros Hc. unfold put. by rewrite Hc. Qed.

Lemma put_open item qu s :
  _closed qu = false →
  put item qu s =
    (Returns,
     mkAsyncQueue (items qu ++ [item]) (drop 1 (waiting qu)) false,
     set_ready (ready s ++ take 1 (waiting qu)) s).
Proof.
  intros Hc. unfold put. rewrite Hc.
  destruct qu as [its [|t rest] c]; simpl in *.
  - rewrite app_nil_r. by destruct s.
  - by rewrite drop_0.
Qed.

Lemma get_closed its wt s :
  get (mkAsyncQueue its wt true) s =
    match its with
    | [] => (GetRaises QueueClosed, mkAsyncQueue [] wt true, s)
    | v :: rest => (GetReturns v, mkAsyncQueue rest wt true, s)
    end.
Proof. by destruct its. Qed.

(** C5.  [put] raises [QueueClosed] exactly on a closed queue and then
    changes nothing; on an open queue it returns, the item is the new tail
    of the item sequence, the oldest waiter (if any) leaves the waiter
    sequence for the tail of the ready queue, nothing else in the scheduler
    changes, and the item is not handed over: it stays in the queue, where
    the next [get] of any task finds the head of the item sequence. *)
Theorem put_contract (item : value) (qu : AsyncQueue) (s : Scheduler) :
  match put item qu s with
  | (Raises e, qu', s') =>
      _closed qu = true ∧ e = QueueClosed ∧ qu' = qu ∧ s' = s
  | (Returns, qu', s') =>
      _closed qu = false ∧ _closed qu' = false
      ∧ items qu' = items qu ++ [item]
      ∧ waiting qu' = drop 1 (waiting qu)
      ∧ ready s' = ready s ++ take 1 (waiting qu)
      ∧ sleeping s' = sleeping s ∧ sequence s' = sequence s
      ∧ _read_waiting s' = _read_waiting s ∧ _write_waiting s' = _write_waiting s
      ∧ current s' = current s
      ∧ ∀ s'', (get qu' s'').1.1 = GetReturns (default item (head (items qu)))
  end.
Proof.
  destruct (_closed qu) eqn:Hc.
  - rewrite put_closed by done. done.
  - rewrite put_open by done. simpl. repeat split; try done.
    intros s''. unfold get. simpl. by destruct (items qu).
Qed.

(** C10.  A [put] that fails on a closed queue leaves the item sequence,
    the waiter sequence and the ready queue (indeed the whole queue and
    scheduler) as they were. *)
Theorem put_closed_atomic (item : value) (qu : AsyncQueue) (s : Scheduler) :
  _closed qu = true →
  ∃ qu' s',
    put item qu s = (Raises QueueClosed, qu', s')
    ∧ items qu' = items qu ∧ waiting qu' = waiting qu ∧ ready s' = ready s
    ∧ qu' = qu ∧ s' = s.
Proof.
  intros Hc. exists qu, s. by rewrite put_closed.
Qed.

Lemma put_closed_atomic_witness :
  let qu := mkAsyncQueue [VInt 1] [TaskRef 0] true in
  let s := mkScheduler [FuncRef 3] [] 0 ∅ ∅ PyNone in
  _closed qu = true
  ∧ ∃ qu' s',
      put (VInt 2) qu s = (Raises QueueClosed, qu', s')
      ∧ items qu' = items qu ∧ waiting qu' = waiting qu ∧ ready s' = ready s
      ∧ qu' = qu ∧ s' = s.
Proof.
  split; [reflexivity|].
  apply (put_closed_atomic (VInt 2) (mkAsyncQueue [VInt 1] [TaskRef 0] true)).
  reflexivity.
Defined.

(** [close] sets the flag and hands at most one waiter to the scheduler. *)
Lemma close_eq qu s :
  close qu s =
    match waiting qu, items qu with
    | t :: rest, [] => (mkAsyncQueue [] rest true, set_ready (ready s ++ [t]) s)
    | _, _ => (mkAsyncQueue (items qu) (waiting qu) true, s)
    end.
Proof. unfold close. simpl. by destruct (waiting qu), (items qu). Qed.

(** A second [close] changes nothing when the first one found a buffered
    item or fewer than two waiters. *)
Lemma close_twice_same (qu : AsyncQueue) (s : Scheduler) :
  items qu ≠ [] ∨ length (waiting qu) ≤ 1 →
  close (close qu s).1 (close qu s).2 = close qu s.
Proof.
  intros H. rewrite (close_eq qu s).
  destruct qu as [its wt c]; simpl in *.
  destruct wt as [|t [|t' rest]], its as [|v its']; simpl in *; try done.
  destruct H as [H|H]; [done | lia].
Qed.

Lemma close_twice_same_witness :
  close (close (mkAsyncQueue [] [TaskRef 0] false) Scheduler_init).1
        (close (mkAsyncQueue [] [TaskRef 0] false) Scheduler_init).2
  = close (mkAsyncQueue [] [TaskRef 0] false) Scheduler_init.
Proof.
  apply (close_twice_same (mkAsyncQueue [] [TaskRef 0] false) Scheduler_init).
  right. simpl. lia.
Defined.

(** C8.  [close] is not idempotent: with two tasks waiting on an empty
    queue the first [close] wakes the first task and the second [close]
    wakes the second one, so the waiter sequence and the ready queue after
    two calls differ from those after one call. *)
Theorem close_twice_differs :
  let qu := mkAsyncQueue [] [TaskRef 0; TaskRef 1] false in
  let once := close qu Scheduler_init in
  let twice := close once.1 once.2 in
  waiting once.1 = [TaskRef 1] ∧ ready once.2 = [TaskRef 0]
  ∧ waiting twice.1 = [] ∧ ready twice.2 = [TaskRef 0; TaskRef 1]
  ∧ twice ≠ once.
Proof. repeat split; try reflexivity. simpl. intros H. discriminate H. Qed.

(** ** The invariant of the queue *)

Lemma get_exclusive qu s :
  exclusive qu → exclusive (get qu s).1.2.
Proof.
  unfold exclusive, get.
  destruct qu as [[|v its] wt [|]]; simpl; intros [H|H]; subst; auto; done.
Qed.

Lemma close_exclusive qu s :
  exclusive qu → exclusive (close qu s).1.
Proof.
  rewrite close_eq. unfold exclusive.
  destruct qu as [[|v its] [|t wt] c]; simpl; intros [H|H]; auto; done.
Qed.

Lemma put_exclusive item qu s :
  exclusive qu → length (waiting qu) ≤ 1 → exclusive (put item qu s).1.2.
Proof.
  unfold exclusive. intros Hex Hlen.
  destruct (_closed qu) eqn:Hc.
  - by rewrite put_closed.
  - rewrite put_open by done. simpl. right.
    destruct (waiting qu) as [|t [|t' wt]]; simpl in *; try done. lia.
Qed.

(** What one run of the loop of [get] does to the two sequences. *)
Lemma get_consumes_or_registers qu s :
  match get qu s with
  | (GetReturns v, qu', s') =>
      items qu = v :: items qu' ∧ waiting qu' = waiting qu ∧ s' = s
  | (GetAwaits, qu', s') =>
      items qu = [] ∧ items qu' = [] ∧ _closed qu = false
      ∧ waiting qu' = waiting qu ++ [current s] ∧ current s' = PyNone
  | (GetRaises e, qu', s') =>
      e = QueueClosed ∧ items qu = [] ∧ _closed qu = true ∧ qu' = qu ∧ s' = s
  end.
Proof.
  unfold get. destruct qu as [[|v its] wt [|]]; simpl; done.
Qed.

Lemma apply_op_exclusive o st :
  exclusive st.1 →
  match o with OpPut _ => length (waiting st.1) ≤ 1 | _ => True end →
  exclusive (apply_op o st).1.
Proof.
  destruct st as [qu s]. destruct o as [item|t|]; simpl; intros Hex Hlen.
  - pose proof (put_exclusive item qu s Hex Hlen) as H.
    by destruct (put item qu s) as [[r q'] s'].
  - pose proof (get_exclusive qu (set_current t s) Hex) as H.
    by destruct (get qu (set_current t s)) as [[r q'] s'].
  - by apply close_exclusive.
Qed.

(** C9, as the code has it.  Along every sequence of [put], [get] and
    [close] steps in which no [put] finds two or more waiting tasks, items
    and waiters are never both present; and one run of the loop of [get]
    either removes the head item and leaves the waiters alone, or finds no
    item and appends the caller to the waiters, or raises and changes
    nothing. *)
Theorem exclusive_invariant (ops : list op) (st : AsyncQueue * Scheduler) :
  exclusive st.1 →
  puts_find_le1 ops st →
  exclusive (apply_ops ops st).1
  ∧ ∀ qu s,
      match get qu s with
      | (GetReturns v, qu', s') =>
          items qu = v :: items qu' ∧ waiting qu' = waiting qu ∧ s' = s
      | (GetAwaits, qu', s') =>
          items qu = [] ∧ items qu' = [] ∧ _closed qu = false
          ∧ waiting qu' = waiting qu ++ [current s] ∧ current s' = PyNone
      | (GetRaises e, qu', s') =>
          e = QueueClosed ∧ items qu = [] ∧ _closed qu = true ∧ qu' = qu ∧ s' = s
      end.
Proof.
  intros Hex Hputs. split; [|apply get_consumes_or_registers].
  revert st Hex Hputs. unfold apply_ops.
  induction ops as [|o ops IH]; intros st Hex Hputs; simpl in *; [done|].
  destruct Hputs as [Ho Hrest].
  apply IH; [|done]. by apply apply_op_exclusive.
Qed.

Lemma exclusive_invariant_witness :
  let ops := [OpGet (TaskRef 0); OpPut (VInt 5); OpGet (TaskRef 0); OpClose] in
  let st := (AsyncQueue_init, Scheduler_init) in
  exclusive (apply_ops ops st).1.
Proof.
  refine (proj1 (exclusive_invariant
            [OpGet (TaskRef 0); OpPut (VInt 5); OpGet (TaskRef 0); OpClose]
            (AsyncQueue_init, Scheduler_init) _ _)).
  - left. reflexivity.
  - simpl. repeat split; lia.
Defined.

(** C9 as stated fails: two tasks wait, one item is put; the step of the
    producer ends with the item buffered and the second task still in the
    waiter sequence.  So it is for the three operations in a row, and so it
    is in the event loop after the three tasks have had one step each: the
    state between the producer's step and the step of the woken
    consumer. *)
Lemma exclusive_fails_two_waiters :
  let ops := [OpGet (TaskRef 0); OpGet (TaskRef 1); OpPut (VInt 7)] in
  let qu := (apply_ops ops (AsyncQueue_init, Scheduler_init)).1 in
  let between := drain no_funcs 3 (two_consumers_one_item (VInt 7)) in
  (items qu = [VInt 7] ∧ waiting qu = [TaskRef 1] ∧ ¬ exclusive qu)
  ∧ between.1 = Running
  ∧ ready (sched between.2) = [TaskRef 0]
  ∧ items (q between.2) = [VInt 7] ∧ waiting (q between.2) = [TaskRef 1]
  ∧ ¬ exclusive (q between.2).
Proof.
  repeat split; try (intros [H|H]; discriminate H).
Qed.

(** ** FIFO delivery and closure *)

(** C1.  After [put(1); put(2); close()] on a queue with no buffered item,
    three [get] calls return 1, return 2 and raise [QueueClosed]; a task
    whose body makes the three calls continues accordingly without being
    suspended.  On every closed queue [get] returns the head item when
    there is one and raises [QueueClosed] when there is none: it never
    suspends its caller and never makes up a value. *)
Theorem get_after_close (wt : list callable) (s : Scheduler) :
  let st0 := (mkAsyncQueue [] wt false, s) in
  let st3 := apply_ops [OpPut (VInt 1); OpPut (VInt 2); OpClose] st0 in
  let g1 := get st3.1 st3.2 in
  let g2 := get g1.1.2 g1.2 in
  let g3 := get g2.1.2 g2.2 in
  (g1.1.1 = GetReturns (VInt 1) ∧ g2.1.1 = GetReturns (VInt 2)
   ∧ g3.1.1 = GetRaises QueueClosed ∧ g3.1.2 = g2.1.2 ∧ g3.2 = g2.2)
  ∧ (∀ sc tk ck out k h,
       coro_send (AwaitGet (λ a, AwaitGet (λ b, AwaitGet (k a b) (h a b)) (Raise QueueClosed))
                    (Raise QueueClosed)) (mkWorld sc st3.1 tk ck out)
       = coro_send (h (VInt 1) (VInt 2))
           (mkWorld sc (mkAsyncQueue [] (waiting st3.1) true) tk ck out))
  ∧ (∀ its wt' s',
       get (mkAsyncQueue its wt' true) s' =
         match its with
         | [] => (GetRaises QueueClosed, mkAsyncQueue [] wt' true, s')
         | v :: rest => (GetReturns v, mkAsyncQueue rest wt' true, s')
         end).
Proof.
  split; [|split].
  - destruct wt as [|t [|t' [|t'' wt]]]; repeat split.
  - intros sc tk ck out k h.
    destruct wt as [|t [|t' [|t'' wt]]]; reflexivity.
  - intros. apply get_closed.
Qed.

(** ** Tasks *)

Lemma set_queue_tasks qs w : tasks (set_queue qs w) = tasks w.
Proof. done. Qed.

(** Running a coroutine never removes or replaces a task object; it can
    only create new ones. *)
Lemma coro_send_tasks_prefix c w :
  tasks w `prefix_of` tasks (coro_send c w).2.
Proof.
  revert w. induction c as [| | | | | | |item k IHk h IHh|k IHk h IHh|k IHk
                           |c' _ k IHk|f k IHk|d f k IHk|v k IHk];
    intros w; simpl; try done.
  - destruct (put item (q w) (sched w)) as [[[|e] q'] s'].
    + etrans; [|apply IHk]. done.
    + etrans; [|apply IHh]. done.
  - destruct (get (q w) (sched w)) as [[[v|e|] q'] s'].
    + etrans; [|apply IHk]. done.
    + etrans; [|apply IHh]. done.
    + done.
  - etrans; [|apply IHk]. done.
  - etrans; [|apply IHk]. simpl. by apply prefix_app_r.
  - etrans; [|apply IHk]. done.
  - etrans; [|apply IHk]. done.
  - etrans; [|apply IHk]. done.
Qed.

Lemma coro_send_lookup c w t st :
  tasks w !! t = Some st → tasks (coro_send c w).2 !! t = Some st.
Proof.
  intros Ht. destruct (coro_send_tasks_prefix c w) as [l ->].
  by apply lookup_app_l_Some.
Qed.

(** The suspension-point helpers clear [current]; a bare [await switch()]
    does not touch it. *)
Lemma helpers_clear_current w k :
  (∀ d, current (sched (coro_send (AwaitSleep d k) w).2) = PyNone)
  ∧ (∀ sock, current (sched (coro_send (AwaitRecv sock k) w).2) = PyNone)
  ∧ (∀ sock, current (sched (coro_send (AwaitSend sock k) w).2) = PyNone)
  ∧ (∀ sock, current (sched (coro_send (AwaitAccept sock k) w).2) = PyNone)
  ∧ current (sched (coro_send (AwaitSwitch k) w).2) = current (sched w).
Proof. done. Qed.

Lemma get_awaits_on_empty k h w :
  items (q w) = [] → _closed (q w) = false →
  coro_send (AwaitGet k h) w =
    (Yields (AwaitGet k h),
     mkWorld (set_current PyNone (sched w))
       (mkAsyncQueue [] (waiting (q w) ++ [current (sched w)]) false)
       (tasks w) (clock w) (stdout w)).
Proof.
  intros Hit Hc. simpl. unfold get. by rewrite Hit, Hc.
Qed.

(** C7.  One invocation of a task whose coroutine is suspended at [c].
    When the coroutine suspends again, the task appends itself to the ready
    queue if [current] is still set and appends nothing if [current] has
    been cleared; when the coroutine completes ([StopIteration]) or raises,
    the task appends nothing: the ready queue is as the coroutine left
    it. *)
Theorem Task_call_requeue (t : nat) (c : coro) (w : World) :
  tasks w !! t = Some (Suspended c) →
  let w1 := set_sched (set_current (TaskRef t) (sched w)) w in
  match coro_send c w1 with
  | (Yields k, w2) =>
      ∃ w', Task_call t w = (Returns, w')
        ∧ ready (sched w') =
            ready (sched w2) ++ (if truthy (current (sched w2)) then [TaskRef t] else [])
        ∧ (current (sched w2) = PyNone → ready (sched w') = ready (sched w2))
        ∧ tasks w' !! t = Some (Suspended k)
  | (StopIteration, w2) =>
      ∃ w', Task_call t w = (Returns, w')
        ∧ ready (sched w') = ready (sched w2)
        ∧ tasks w' !! t = Some Finished
  | (Propagates e, w2) =>
      ∃ w', Task_call t w = (Raises e, w')
        ∧ ready (sched w') = ready (sched w2)
        ∧ tasks w' !! t = Some Finished
  end.
Proof.
  intros Ht w1.
  assert (Ht1 : tasks w1 !! t = Some (Suspended c)) by done.
  pose proof (coro_send_lookup c w1 t _ Ht1) as Hlk.
  apply lookup_lt_Some in Hlk.
  unfold Task_call. fold w1. rewrite Ht1. unfold Task_drive.
  destruct (coro_send c w1) as [[k| |e] w2]; simpl in *.
  - destruct (current (sched w2)) eqn:Hcur; simpl; eexists; (split; [done|]); simpl;
      rewrite ?app_nil_r; repeat split; try done; by apply list_lookup_insert_eq.
  - eexists. split; [done|]. split; [done|]. by apply list_lookup_insert_eq.
  - eexists. split; [done|]. split; [done|]. by apply list_lookup_insert_eq.
Qed.

Lemma Task_call_requeue_witness :
  let w := new_task (AwaitSleep 1 Return) World_init in
  tasks w !! 0 = Some (Suspended (AwaitSleep 1 Return))
  ∧ ∃ w', Task_call 0 w = (Returns, w')
      ∧ ready (sched w') = ready (sched w)
      ∧ tasks w' !! 0 = Some (Suspended Return).
Proof.
  split; [reflexivity|].
  destruct (Task_call_requeue 0 (AwaitSleep 1 Return)
              (new_task (AwaitSleep 1 Return) World_init) eq_refl)
    as (w' & Hcall & _ & Hready & Htask).
  exists w'. split; [exact Hcall|]. split; [|exact Htask].
  rewrite Hready; reflexivity.
Defined.

(** ** Two waiters and one item *)

(** A task suspended in [get] that is resumed while no item is buffered
    and the queue is open goes back to the waiter sequence and is not put
    on the ready queue. *)
Lemma Task_call_get_rechecks (t : nat) k h (w : World) :
  tasks w !! t = Some (Suspended (AwaitGet k h)) →
  items (q w) = [] → _closed (q w) = false →
  Task_call t w =
    (Returns,
     mkWorld (set_current PyNone (sched w))
       (mkAsyncQueue [] (waiting (q w) ++ [TaskRef t]) false)
       (tasks w) (clock w) (stdout w)).
Proof.
  intros Ht Hit Hc. unfold Task_call. simpl. rewrite Ht. unfold Task_drive.
  rewrite get_awaits_on_empty by done. simpl.
  unfold set_task. simpl. by rewrite list_insert_id.
Qed.

(** C6.  Two tasks [a] and [b] wait in [get] on an empty open queue, the
    ready queue is empty, and [put(x)] is performed.  The put succeeds and
    wakes [a] only; [x] is buffered.  The scheduler then takes [a] off the
    ready queue and calls it; its [get] returns [x]: the step continues
    with the rest of [a]'s body applied to [x], the item sequence empty
    again.  Task [b] is still suspended in its [get], still the only
    waiter and not on the ready queue; were it woken at that point it would
    find no item and wait again. *)
Theorem put_serves_one_of_two (w : World) (a b : nat) ka ha kb hb (x : value) :
  a ≠ b →
  tasks w !! a = Some (Suspended (AwaitGet ka ha)) →
  tasks w !! b = Some (Suspended (AwaitGet kb hb)) →
  q w = mkAsyncQueue [] [TaskRef a; TaskRef b] false →
  ready (sched w) = [] →
  let w1 := set_queue ((put x (q w) (sched w)).1.2, (put x (q w) (sched w)).2) w in
  let popped := set_sched (set_ready [] (sched w1)) w1 in
  let w2 := mkWorld (set_current (TaskRef a) (sched popped))
              (mkAsyncQueue [] [TaskRef b] false) (tasks w) (clock w) (stdout w) in
  (put x (q w) (sched w)).1.1 = Returns
  ∧ ready (sched w1) = [TaskRef a]
  ∧ items (q w1) = [x] ∧ waiting (q w1) = [TaskRef b]
  ∧ Task_call a popped = Task_drive a (ka x) w2
  ∧ tasks w2 !! b = Some (Suspended (AwaitGet kb hb))
  ∧ ready (sched w2) = []
  ∧ Task_call b (mkWorld (sched w2) (mkAsyncQueue [] [] false) (tasks w) (clock w) (stdout w))
    = (Returns, mkWorld (set_current PyNone (sched w2)) (mkAsyncQueue [] [TaskRef b] false)
                  (tasks w) (clock w) (stdout w)).
Proof.
  intros Hab Ha Hb Hq Hr w1 popped w2.
  destruct w as [s qu tk ck out]; simpl in *. subst qu.
  subst w1 popped w2. simpl. rewrite Hr. simpl.
  repeat split; try done.
  - unfold Task_call. simpl. by rewrite Ha.
  - by rewrite (Task_call_get_rechecks b kb hb).
Qed.

Lemma put_serves_one_of_two_witness :
  let w := mkWorld Scheduler_init (mkAsyncQueue [] [TaskRef 0; TaskRef 1] false)
             [Suspended consumer_once; Suspended consumer_once] 0 [] in
  let w1 := set_queue ((put (VInt 7) (q w) (sched w)).1.2,
                       (put (VInt 7) (q w) (sched w)).2) w in
  ready (sched w1) = [TaskRef 0] ∧ items (q w1) = [VInt 7] ∧ waiting (q w1) = [TaskRef 1].
Proof.
  pose proof (put_serves_one_of_two
    (mkWorld Scheduler_init (mkAsyncQueue [] [TaskRef 0; TaskRef 1] false)
       [Suspended consumer_once; Suspended consumer_once] 0 [])
    0 1 (λ item, Print item Return) (Print (VStr "Consuming done") Return)
    (λ item, Print item Return) (Print (VStr "Consuming done") Return)
    (VInt 7) ltac:(lia) eq_refl eq_refl eq_refl eq_refl) as H.
  exact (conj (proj1 (proj2 H)) (conj (proj1 (proj2 (proj2 H))) (proj1 (proj2 (proj2 (proj2 H)))))).
Defined.

(** ** The event loop: fuel *)

Section LoopFacts.

Variable funcs : nat → World → outcome * World.

(** More fuel does not change a run that has ended. *)
Lemma drain_fuel_mono fuel k w r w' :
  drain funcs fuel w = (r, w') → r ≠ Running →
  drain funcs (fuel + k) w = (r, w').
Proof.
  revert w. induction fuel as [|fuel IH]; intros w H Hr; simpl in *.
  - destruct (ready (sched w)) eqn:E; [|congruence].
    destruct k; simpl; by rewrite E.
  - destruct (ready (sched w)) as [|func rest]; [done|].
    destruct (call funcs func _) as [[|e] w1]; [by apply IH | done].
Qed.

Lemma iteration_fuel_mono fuel k env w r env' w' :
  iteration funcs fuel env w = (r, env', w') → r ≠ Running →
  iteration funcs (fuel + k) env w = (r, env', w').
Proof.
  unfold iteration. intros H Hr.
  destruct (ready (sched w)) as [|f rest].
  - destruct env as [|ev env0]; [done|].
    destruct (poll ev (sched w)) as [s'|e s'|]; try done.
    destruct (drain funcs fuel _) as [r0 w0] eqn:Hd.
    simplify_eq. by rewrite (drain_fuel_mono _ k _ _ _ Hd Hr).
  - destruct (drain funcs fuel w) as [r0 w0] eqn:Hd.
    simplify_eq. by rewrite (drain_fuel_mono _ k _ _ _ Hd Hr).
Qed.

Lemma run_fuel_mono fuel k env w r w' :
  run funcs fuel env w = (r, w') → r ≠ Running →
  run funcs (fuel + k) env w = (r, w').
Proof.
  revert env w. induction fuel as [|fuel IH]; intros env w H Hr; simpl in *.
  - congruence.
  - destruct (busy (sched w)); [|done].
    destruct (iteration funcs fuel env w) as [[r0 env0] w0] eqn:Hi.
    assert (r0 = Running → r ≠ Running → False) as Hrun.
    { intros -> ?. congruence. }
    rewrite (iteration_fuel_mono _ k _ _ _ _ _ Hi) by (intros ?; by apply Hrun).
    destruct r0; try done. by apply IH.
Qed.

End LoopFacts.

(** The outer loop condition is false exactly when the four structures are
    empty. *)
Lemma busy_false s :
  busy s = false ↔
  ready s = [] ∧ sleeping s = [] ∧ _read_waiting s = ∅ ∧ _write_waiting s = ∅.
Proof.
  unfold busy. rewrite !orb_false_iff, !bool_decide_eq_false.
  split.
  - intros [[[H1 H2] H3] H4].
    repeat split; by apply dec_stable.
  - intros (-> & -> & -> & ->). repeat split; by intros H.
Qed.

(** ** Termination of [run] *)

Lemma run_returned_idle funcs fuel env w w' :
  run funcs fuel env w = (Returned, w') → busy (sched w') = false.
Proof.
  revert env w. induction fuel as [|fuel IH]; intros env w H; simpl in H.
  - discriminate H.
  - destruct (busy (sched w)) eqn:Hb.
    + destruct (iteration funcs fuel env w) as [[r env1] w1].
      destruct r; try discriminate H. by eapply IH.
    + by simplify_eq.
Qed.

(** C4.  [run] returns only in a state where the ready queue, the
    sleeping queue and both readiness tables are empty; started (or
    arriving at the head of its loop) in such a state it returns at once,
    leaving the state as it is; and at the head of the loop with one of the
    four non-empty it does not return but goes through another iteration,
    after which the condition is examined again.  (An exception that
    leaves a callback leaves [run] too; that is a different outcome,
    [Raised], not a return.) *)
Theorem run_returns_iff_idle (funcs : nat → World → outcome * World)
    (fuel : nat) (env : list event) (w : World) :
  (∀ w', run funcs fuel env w = (Returned, w') →
     ready (sched w') = [] ∧ sleeping (sched w') = []
     ∧ _read_waiting (sched w') = ∅ ∧ _write_waiting (sched w') = ∅)
  ∧ (ready (sched w) = [] ∧ sleeping (sched w) = []
     ∧ _read_waiting (sched w) = ∅ ∧ _write_waiting (sched w) = ∅ →
     run funcs (S fuel) env w = (Returned, w))
  ∧ (¬ (ready (sched w) = [] ∧ sleeping (sched w) = []
        ∧ _read_waiting (sched w) = ∅ ∧ _write_waiting (sched w) = ∅) →
     run funcs (S fuel) env w =
       match iteration funcs fuel env w with
       | (Returned, env', w1) => run funcs fuel env' w1
       | (r, _, w1) => (r, w1)
       end).
Proof.
  split; [|split].
  - intros w' H. apply busy_false. by eapply run_returned_idle.
  - intros H. apply busy_false in H. simpl. by rewrite H.
  - intros H. simpl. destruct (busy (sched w)) eqn:Hb; [done|].
    apply busy_false in Hb. done.
Qed.

Lemma run_returns_iff_idle_witness :
  let w' := (run no_funcs 8 [] two_consumers_then_close).2 in
  ready (sched w') = [] ∧ sleeping (sched w') = []
  ∧ _read_waiting (sched w') = ∅ ∧ _write_waiting (sched w') = ∅.
Proof.
  apply (proj1 (run_returns_iff_idle no_funcs 8 [] two_consumers_then_close)).
  vm_compute. reflexivity.
Defined.

(** ** Closing a queue with several waiters *)

(** With a single waiter, [close] wakes it, and its [get] raises
    [QueueClosed]: the task continues in its handler. *)
Lemma close_wakes_single_waiter (w : World) (a : nat) k h :
  tasks w !! a = Some (Suspended (AwaitGet k h)) →
  q w = mkAsyncQueue [] [TaskRef a] false →
  let w1 := set_queue (close (q w) (sched w)) w in
  ready (sched w1) = ready (sched w) ++ [TaskRef a]
  ∧ waiting (q w1) = []
  ∧ Task_call a w1 = Task_drive a h (set_sched (set_current (TaskRef a) (sched w1)) w1).
Proof.
  intros Ha Hq w1. destruct w as [s qu tk ck out]; simpl in *. subst qu w1.
  repeat split. unfold Task_call. simpl. by rewrite Ha.
Qed.

(** C2 on the code.  Two consumers run first and both wait in [get] on the
    empty open queue; then a third task closes the queue.  [close] wakes
    the first consumer only.  The loop runs until nothing is left to do and
    returns: the first consumer has observed [QueueClosed], the second one
    is still suspended in its [get], still in the waiter sequence, and no
    task or timer is left to wake it. *)
Theorem close_strands_second_waiter (k : nat) :
  let blocked := drain no_funcs 2 two_consumers_then_close in
  let final := run no_funcs (8 + k) [] two_consumers_then_close in
  (waiting (q blocked.2) = [TaskRef 0; TaskRef 1]
   ∧ items (q blocked.2) = [] ∧ _closed (q blocked.2) = false
   ∧ ready (sched blocked.2) = [TaskRef 2])
  ∧ final.1 = Returned
  ∧ _closed (q final.2) = true
  ∧ tasks final.2 = [Finished; Suspended consumer_once; Finished]
  ∧ waiting (q final.2) = [TaskRef 1]
  ∧ stdout final.2 = [VStr "Consuming done"]
  ∧ busy (sched final.2) = false.
Proof.
  intros blocked final.
  split; [by vm_compute|].
  assert (H : run no_funcs 8 [] two_consumers_then_close
              = (Returned,
                 mkWorld (mkScheduler [] [] 0 ∅ ∅ (TaskRef 0))
                   (mkAsyncQueue [] [TaskRef 1] true)
                   [Finished; Suspended consumer_once; Finished] 0
                   [VStr "Consuming done"])) by (vm_compute; reflexivity).
  subst final. rewrite (run_fuel_mono _ _ k _ _ _ _ H) by done.
  by vm_compute.
Qed.

(** The same program with a producer of one item in place of the closing
    task: the first consumer prints the item, the second one is still
    waiting when the loop returns. *)
Lemma two_consumers_one_item_run (x : value) (k : nat) :
  run no_funcs (8 + k) [] (two_consumers_one_item x)
  = (Returned,
     mkWorld (mkScheduler [] [] 0 ∅ ∅ (TaskRef 0))
       (mkAsyncQueue [] [TaskRef 1] false)
       [Finished; Suspended consumer_once; Finished] 0 [x]).
Proof.
  apply run_fuel_mono; [|done]. vm_compute. reflexivity.
Qed.

(** ** [heapq] keeps the smallest entry in front *)

Lemma parent_cases i :
  i = 0 ∨ i = 2 * ((i - 1) / 2) + 1 ∨ i = 2 * ((i - 1) / 2) + 2.
Proof.
  pose proof (Nat.div_mod_eq (i - 1) 2).
  pose proof (Nat.mod_upper_bound (i - 1) 2). lia.
Qed.

Lemma entry_lt_true a b : entry_lt a b = true → key_le a b.
Proof.
  unfold entry_lt, key_le. case_decide; intros Hlt%bool_decide_eq_true; lia.
Qed.

Lemma entry_lt_false a b : entry_lt a b = false → key_le b a.
Proof.
  unfold entry_lt, key_le. case_decide; intros Hlt%bool_decide_eq_false; lia.
Qed.

Lemma key_le_trans a b c : key_le a b → key_le b c → key_le a c.
Proof. unfold key_le. lia. Qed.

Lemma key_le_refl a : key_le a a.
Proof. unfold key_le. lia. Qed.

Lemma lookup_insert_total (h : list entry) i j x :
  i < length h → <[i := x]> h !!! j = if decide (i = j) then x else h !!! j.
Proof.
  intros Hi. rewrite list_lookup_total_insert.
  repeat case_decide; try done; lia.
Qed.

(** Looking at an index of a list with one or two positions overwritten. *)
Ltac heap_lookup :=
  repeat (rewrite lookup_insert_total by (rewrite ?length_insert; lia));
  repeat match goal with |- context [decide ?P] => destruct (decide P) end;
  try lia.

Lemma siftdown_loop_ok fuel heap newitem pos h' p' :
  pos ≤ fuel → pos < length heap →
  heap_inv_except (<[pos := newitem]> heap) pos →
  _siftdown_loop fuel heap newitem 0 pos = (h', p') →
  heap_inv (<[p' := newitem]> h') ∧ <[p' := newitem]> h' ≡ₚ <[pos := newitem]> heap.
Proof.
  revert heap pos. induction fuel as [|fuel IH]; intros heap pos Hfuel Hpos [Hin Hch] Hloop.
  - simpl in Hloop. simplify_eq. split; [|done].
    intros i Hi. apply Hin; [done|lia].
  - cbn [_siftdown_loop] in Hloop. rewrite length_insert in Hin, Hch.
    destruct (decide (0 < pos)) as [Hpos0|Hpos0].
    2:{ simplify_eq. split; [|done]. intros i Hi. rewrite length_insert in Hi.
        apply Hin; [done|lia]. }
    pose proof (parent_cases pos) as Hpar.
    rewrite (list_lookup_lookup_total_lt heap ((pos - 1) / 2)) in Hloop by lia.
    destruct (entry_lt newitem (heap !!! ((pos - 1) / 2))) eqn:Hlt.
    + apply IH in Hloop as [Hinv Hperm]; [| lia | rewrite length_insert; lia | ].
      * split; [done|]. rewrite Hperm.
        rewrite <-(list_insert_insert_eq heap pos (heap !!! ((pos - 1) / 2)) newitem).
        apply Permutation_insert_swap.
        -- apply list_lookup_insert_eq. lia.
        -- rewrite list_lookup_insert_ne by lia. apply list_lookup_lookup_total_lt. lia.
      * apply entry_lt_true in Hlt.
        split; rewrite !length_insert.
        -- intros i Hi Hne. pose proof (parent_cases i) as Hpi.
           pose proof (parent_cases ((pos - 1) / 2)) as Hpp.
           destruct (decide (i = pos)) as [->|Hip].
           { heap_lookup. done. }
           specialize (Hin i Hi Hip).
           destruct (decide ((i - 1) / 2 = pos)) as [Hc|Hc].
           { specialize (Hch i Hpos0 Hi Hc). revert Hch. rewrite Hc. heap_lookup. done. }
           destruct (decide ((i - 1) / 2 = (pos - 1) / 2)) as [Hs|Hs].
           { revert Hin. rewrite Hs. heap_lookup. intros Hin. by eapply key_le_trans. }
           revert Hin. heap_lookup. done.
        -- intros c Hpp0 Hc Hcp. pose proof (parent_cases c) as Hpc.
           pose proof (parent_cases ((pos - 1) / 2)) as Hpp.
           assert (Hgp : key_le (heap !!! ((((pos - 1) / 2) - 1) / 2)) (heap !!! ((pos - 1) / 2))).
           { specialize (Hin ((pos - 1) / 2)). revert Hin. heap_lookup. intros Hin. apply Hin; lia. }
           destruct (decide (c = pos)) as [->|Hcpos].
           { heap_lookup. done. }
           specialize (Hin c Hc Hcpos). revert Hin. rewrite Hcp. heap_lookup.
           intros Hin. by eapply key_le_trans.
    + injection Hloop as <- <-. split; [|done]. apply entry_lt_false in Hlt.
      intros i Hi. rewrite length_insert in Hi.
      destruct (decide (i = pos)) as [->|Hip]; [|by apply Hin].
      heap_lookup. done.
Qed.

Lemma siftdown_ok heap pos :
  pos < length heap → heap_inv_except heap pos →
  heap_inv (_siftdown heap 0 pos) ∧ _siftdown heap 0 pos ≡ₚ heap.
Proof.
  intros Hpos Hex. unfold _siftdown.
  rewrite (list_lookup_lookup_total_lt heap pos) by done.
  destruct (_siftdown_loop pos heap (heap !!! pos) 0 pos) as [h' p'] eqn:Hloop.
  assert (Hid : <[pos := heap !!! pos]> heap = heap).
  { apply list_insert_id. by apply list_lookup_lookup_total_lt. }
  apply siftdown_loop_ok in Hloop; [|done..|by rewrite Hid].
  by rewrite Hid in Hloop.
Qed.

Lemma heappush_ok heap item :
  heap_inv heap →
  heap_inv (heappush heap item) ∧ heappush heap item ≡ₚ item :: heap.
Proof.
  intros Hinv. unfold heappush.
  destruct (siftdown_ok (heap ++ [item]) (length (heap ++ [item]) - 1)) as [H1 H2].
  - rewrite length_app. cbn [length]. lia.
  - unfold heap_inv_except. rewrite !length_app. cbn [length]. split.
    + intros i Hi Hne. pose proof (parent_cases i).
      rewrite !lookup_total_app_l by lia. apply Hinv. lia.
    + intros c _ Hc Hcp. pose proof (parent_cases c). lia.
  - split; [done|]. rewrite H2. by rewrite Permutation_app_comm.
Qed.

Lemma siftup_loop_ok fuel heap newitem pos h' p' :
  length heap ≤ fuel + pos → pos < length heap →
  heap_inv_hole heap pos →
  _siftup_loop fuel heap (length heap) pos = (h', p') →
  heap_inv_hole h' p' ∧ length h' = length heap
  ∧ p' < length heap ∧ length heap ≤ 2 * p' + 1
  ∧ <[p' := newitem]> h' ≡ₚ <[pos := newitem]> heap.
Proof.
  revert heap pos. induction fuel as [|fuel IH]; intros heap pos Hfuel Hpos Hinv Hloop.
  - simpl in Hloop. injection Hloop as <- <-. repeat split; try done; lia.
  - cbn [_siftup_loop] in Hloop.
    destruct (decide (2 * pos + 1 < length heap)) as [Hl|Hl].
    2:{ injection Hloop as <- <-. repeat split; try done; lia. }
    set (n := length heap) in *.
    (* the chosen child and the fact that it is the smaller one *)
    assert (∃ c, 2 * pos + 1 ≤ c ≤ 2 * pos + 2 ∧ c < n
                 ∧ (∀ j, 2 * pos + 1 ≤ j ≤ 2 * pos + 2 → j < n →
                      key_le (heap !!! c) (heap !!! j))
                 ∧ _siftup_loop fuel (<[pos := heap !!! c]> heap) n c = (h', p'))
      as (c & Hc & Hcn & Hmin & Hrec).
    { destruct (decide (2 * pos + 1 + 1 < n)) as [Hr|Hr].
      - rewrite (list_lookup_lookup_total_lt heap (2 * pos + 1)) in Hloop by done.
        rewrite (list_lookup_lookup_total_lt heap (2 * pos + 1 + 1)) in Hloop by done.
        destruct (entry_lt (heap !!! (2 * pos + 1)) (heap !!! (2 * pos + 1 + 1))) eqn:Hlt.
        + rewrite (list_lookup_lookup_total_lt heap (2 * pos + 1)) in Hloop by done.
          exists (2 * pos + 1). repeat split; try done; try lia.
          intros j Hj Hjn. apply entry_lt_true in Hlt.
          destruct (decide (j = 2 * pos + 1)) as [->|]; [apply key_le_refl|].
          by replace j with (2 * pos + 1 + 1) by lia.
        + rewrite (list_lookup_lookup_total_lt heap (2 * pos + 1 + 1)) in Hloop by done.
          exists (2 * pos + 1 + 1). repeat split; try done; try lia.
          intros j Hj Hjn. apply entry_lt_false in Hlt.
          destruct (decide (j = 2 * pos + 1)) as [->|]; [done|].
          replace j with (2 * pos + 1 + 1) by lia. apply key_le_refl.
      - rewrite (list_lookup_lookup_total_lt heap (2 * pos + 1)) in Hloop by done.
        exists (2 * pos + 1). repeat split; try done; try lia.
        intros j Hj Hjn. replace j with (2 * pos + 1) by lia. apply key_le_refl. }
    assert (Hlen : length (<[pos := heap !!! c]> heap) = n) by apply length_insert.
    rewrite <-Hlen in Hrec at 1.
    apply (IH _ _) in Hrec; [| rewrite Hlen; lia | rewrite Hlen; lia | ].
    + rewrite Hlen in Hrec. destruct Hrec as (H1 & H2 & H3 & H4 & H5).
      repeat split; try done. rewrite H5.
      rewrite <-(list_insert_insert_eq heap pos (heap !!! c) newitem).
      apply Permutation_insert_swap.
      * by apply list_lookup_insert_eq.
      * rewrite list_lookup_insert_ne by lia. by apply list_lookup_lookup_total_lt.
    + intros i Hi _. rewrite Hlen in Hi. pose proof (parent_cases i) as Hpi.
      pose proof (parent_cases pos) as Hpp. pose proof (parent_cases c) as Hpc.
      destruct (decide (i = pos)) as [->|Hip].
      * heap_lookup. eapply key_le_trans; [apply Hinv; lia|].
        replace pos with ((c - 1) / 2) at 1 by lia. apply Hinv; lia.
      * destruct (decide ((i - 1) / 2 = pos)) as [Hcp|Hcp].
        -- rewrite Hcp. heap_lookup. apply Hmin; lia.
        -- heap_lookup. apply Hinv; lia.
Qed.

Lemma siftup_ok heap :
  0 < length heap → heap_inv_hole heap 0 →
  heap_inv (_siftup heap 0) ∧ _siftup heap 0 ≡ₚ heap.
Proof.
  intros Hlen Hinv. unfold _siftup.
  rewrite (list_lookup_lookup_total_lt heap 0) by done.
  destruct (_siftup_loop (length heap) heap (length heap) 0) as [h' p'] eqn:Hloop.
  apply (siftup_loop_ok _ _ (heap !!! 0)) in Hloop as (Hhole & Hlen' & Hp' & Hleaf & Hperm);
    [|lia|done|done].
  rewrite (list_insert_id heap 0) in Hperm by (by apply list_lookup_lookup_total_lt).
  destruct (siftdown_ok (<[p' := heap !!! 0]> h') p') as [H1 H2].
  - rewrite length_insert. lia.
  - unfold heap_inv_except. rewrite length_insert, Hlen'. split.
    + intros i Hi Hne. pose proof (parent_cases i). heap_lookup.
      apply Hhole; lia.
    + intros c Hp0 Hc Hcp. pose proof (parent_cases c). lia.
  - split; [done|]. by rewrite H2.
Qed.

Lemma heap_root_least heap i :
  heap_inv heap → i < length heap → key_le (heap !!! 0) (heap !!! i).
Proof.
  intros Hinv. induction (lt_wf i) as [i _ IH]. intros Hi.
  destruct (decide (i = 0)) as [->|Hne]; [apply key_le_refl|].
  pose proof (parent_cases i).
  eapply key_le_trans; [apply (IH ((i - 1) / 2)); lia|].
  apply Hinv. lia.
Qed.

Lemma heappop_nil heap : heappop heap = None ↔ heap = [].
Proof.
  unfold heappop. split.
  - destruct (last heap) eqn:Hl; [|intros _; by apply last_None].
    by destruct (removelast heap !! 0).
  - by intros ->.
Qed.

Lemma heappop_ok heap e rest :
  heap_inv heap → heappop heap = Some (e, rest) →
  heap_inv rest ∧ heap ≡ₚ e :: rest ∧ heap !! 0 = Some e
  ∧ ∀ x, x ∈ heap → key_le e x.
Proof.
  intros Hinv Hpop.
  assert (Hleast : ∀ x, x ∈ heap → key_le (heap !!! 0) x).
  { intros x [i Hi]%list_elem_of_lookup.
    pose proof (lookup_lt_Some _ _ _ Hi) as Hlt.
    rewrite list_lookup_lookup_total_lt in Hi by done. injection Hi as <-.
    by apply heap_root_least. }
  unfold heappop in Hpop.
  destruct (last heap) as [lastelt|] eqn:Hlast; [|done].
  apply last_Some in Hlast as [h0 ->].
  rewrite removelast_last in Hpop.
  destruct h0 as [|r t]; simpl in Hpop.
  - injection Hpop as <- <-. repeat split; try done. intros i Hi. simpl in Hi. lia.
  - injection Hpop as <- <-.
    destruct (siftup_ok (lastelt :: t)) as [H1 H2].
    + simpl. lia.
    + intros i Hi Hpar. cbn [length] in Hi. pose proof (parent_cases i).
      specialize (Hinv i). rewrite length_app in Hinv. cbn [length] in Hinv.
      rewrite !lookup_total_app_l in Hinv by (cbn [length]; lia).
      destruct i as [|i]; [lia|].
      destruct ((S i - 1) / 2) as [|j] eqn:Hj; [exfalso; by apply Hpar|].
      rewrite !lookup_total_cons_ne_0 in * by lia.
      apply Hinv. lia.
    + repeat split; try done.
      rewrite H2. simpl. f_equiv. by rewrite <-Permutation_cons_append.
Qed.

(** ** Timers *)

Lemma call_later_spec now delay func s :
  heap_inv (sleeping s) →
  let s' := call_later now delay func s in
  heap_inv (sleeping s')
  ∧ sleeping s' ≡ₚ ((now + delay)%Z, sequence s + 1, func) :: sleeping s
  ∧ sequence s' = sequence s + 1 ∧ ready s' = ready s.
Proof.
  intros Hinv. simpl.
  destruct (heappush_ok (sleeping s) ((now + delay)%Z, sequence s + 1, func) Hinv) as [H1 H2].
  done.
Qed.

Lemma call_later_all_spec calls s :
  heap_inv (sleeping s) →
  let s' := call_later_all calls s in
  heap_inv (sleeping s')
  ∧ sleeping s' ≡ₚ timer_entries (sequence s) calls ++ sleeping s
  ∧ ready s' = ready s.
Proof.
  revert s. induction calls as [|c calls IH]; intros s Hinv; simpl.
  - done.
  - destruct (call_later_spec c.1.1 c.1.2 c.2 s Hinv) as (H1 & H2 & H3 & H4).
    destruct (IH _ H1) as (H5 & H6 & H7).
    split; [done|]. split; [|congruence].
    unfold call_later_all in H6. rewrite H6, H2, H3.
    by rewrite <-Permutation_middle.
Qed.

Lemma timer_entries_elem seq0 calls e :
  e ∈ timer_entries seq0 calls ↔
  ∃ i c, calls !! i = Some c ∧ e = ((c.1.1 + c.1.2)%Z, seq0 + i + 1, c.2).
Proof.
  revert seq0. induction calls as [|c calls IH]; intros seq0; simpl.
  - split; [by intros ?%elem_of_nil | by intros (i & c & ? & _)].
  - rewrite elem_of_cons, IH. split.
    + intros [->|(i & c' & Hi & ->)].
      * exists 0, c. split; [done|]. do 2 f_equal. lia.
      * exists (S i), c'. split; [done|]. do 2 f_equal. lia.
    + intros ([|i] & c' & Hi & ->); simpl in Hi.
      * left. simplify_eq. do 2 f_equal. lia.
      * right. exists i, c'. split; [done|]. do 2 f_equal. lia.
Qed.

Lemma timer_entries_seq_NoDup seq0 calls :
  NoDup (seq_of <$> timer_entries seq0 calls).
Proof.
  revert seq0. induction calls as [|c calls IH]; intros seq0; simpl.
  - constructor.
  - constructor; [|apply IH].
    intros (e & He & (i & c' & _ & ->)%timer_entries_elem)%list_elem_of_fmap.
    unfold seq_of in He. simpl in He. lia.
Qed.

Lemma wake_loop_spec fuel now s :
  heap_inv (sleeping s) → length (sleeping s) ≤ fuel →
  ∃ D, ready (wake_loop fuel now s) = ready s ++ (func_of <$> D)
    ∧ sleeping s ≡ₚ D ++ sleeping (wake_loop fuel now s)
    ∧ heap_inv (sleeping (wake_loop fuel now s))
    ∧ StronglySorted key_le D
    ∧ (∀ d, d ∈ D → (deadline_of d < now)%Z)
    ∧ (∀ e, e ∈ sleeping (wake_loop fuel now s) → (now ≤ deadline_of e)%Z).
Proof.
  revert s. induction fuel as [|fuel IH]; intros s Hinv Hlen.
  - exists []. simpl. destruct (sleeping s); [|simpl in Hlen; lia].
    rewrite app_nil_r. repeat split; try done; [constructor | by intros ? ?%elem_of_nil..].
  - cbn [wake_loop].
    destruct (sleeping s !! 0) as [top|] eqn:Htop.
    2:{ exists []. rewrite app_nil_r. repeat split; try done; [constructor | by intros ? ?%elem_of_nil|].
        destruct (sleeping s); [by intros ? ?%elem_of_nil|done]. }
    case_bool_decide as Hdue.
    2:{ exists []. rewrite app_nil_r. repeat split; try done; [constructor | by intros ? ?%elem_of_nil|].
        intros e [i Hi]%list_elem_of_lookup.
        pose proof (lookup_lt_Some _ _ _ Hi) as Hlt.
        pose proof (heap_root_least _ i Hinv Hlt) as Hle.
        rewrite (list_lookup_total_correct _ _ _ Htop), (list_lookup_total_correct _ _ _ Hi) in Hle.
        unfold key_le in Hle. lia. }
    destruct (heappop (sleeping s)) as [[e rest]|] eqn:Hpop.
    2:{ apply heappop_nil in Hpop. by rewrite Hpop in Htop. }
    destruct (heappop_ok _ _ _ Hinv Hpop) as (Hinv' & Hperm & Hroot & Hleast).
    assert (e = top) as -> by congruence.
    set (s1 := mkScheduler _ _ _ _ _ _).
    destruct (IH s1) as (D & H1 & H2 & H3 & H4 & H5 & H6); [done| |].
    { simpl. apply Permutation_length in Hperm. simpl in Hperm. lia. }
    exists (top :: D). simpl in H1, H2. rewrite H1.
    split; [by rewrite <-app_assoc|].
    split; [by rewrite Hperm, H2|].
    split; [done|].
    split.
    { constructor; [done|]. apply Forall_forall. intros d Hd. apply Hleast.
      rewrite Hperm, H2. set_solver. }
    split; [|done].
    intros d [->|Hd]%elem_of_cons; [done|by apply H5].
Qed.

Lemma wake_all_spec nows s :
  heap_inv (sleeping s) →
  ∃ D, ready (wake_all nows s) = ready s ++ (func_of <$> D)
    ∧ sleeping s ≡ₚ D ++ sleeping (wake_all nows s)
    ∧ StronglySorted key_le D
    ∧ (∀ d, d ∈ D → ∃ now, now ∈ nows ∧ (deadline_of d < now)%Z)
    ∧ (∀ e now, e ∈ sleeping (wake_all nows s) → now ∈ nows → (now ≤ deadline_of e)%Z).
Proof.
  revert s. induction nows as [|now nows IH]; intros s Hinv; simpl.
  - exists []. rewrite app_nil_r. repeat split; try done;
      [constructor | by intros ? ?%elem_of_nil | by intros ? ? ? ?%elem_of_nil].
  - destruct (wake_loop_spec (length (sleeping s)) now s Hinv)
      as (D1 & H1 & H2 & H3 & H4 & H5 & H6); [done|].
    fold (wake_sleeping now s) in *.
    destruct (IH _ H3) as (D2 & G1 & G2 & G3 & G4 & G5).
    unfold wake_all in *.
    assert (Hsub : ∀ e, e ∈ D2 ∨ e ∈ sleeping (foldl (λ s now, wake_sleeping now s)
                                               (wake_sleeping now s) nows)
                        → e ∈ sleeping (wake_sleeping now s)).
    { intros e He. rewrite G2. apply elem_of_app. tauto. }
    exists (D1 ++ D2). rewrite G1, H1, fmap_app, <-app_assoc.
    split; [done|]. split; [by rewrite H2, G2, <-app_assoc|].
    split; [|split].
    + apply StronglySorted_app_2; [|done..].
      intros d e Hd He. left.
      specialize (H5 d Hd). specialize (H6 e (Hsub e (or_introl He))). lia.
    + intros d [Hd|Hd]%elem_of_app.
      * exists now. split; [by left|by apply H5].
      * destruct (G4 d Hd) as (now' & Hn & Hlt). exists now'. split; [by right|done].
    + intros e now' He [->|Hn]%elem_of_cons.
      * apply H6, Hsub. by right.
      * by apply G5.
Qed.

(** The call behind an entry of a batch. *)
Lemma timer_entries_call seq0 calls d :
  d ∈ timer_entries seq0 calls →
  seq_of d = seq0 + (seq_of d - seq0 - 1) + 1
  ∧ seq_of d - seq0 - 1 < length calls
  ∧ call_deadline calls (seq_of d - seq0 - 1) = deadline_of d
  ∧ call_func calls (seq_of d - seq0 - 1) = func_of d.
Proof.
  intros (i & c & Hi & ->)%timer_entries_elem.
  unfold seq_of, deadline_of, func_of, call_deadline, call_func. simpl.
  replace (seq0 + i + 1 - seq0 - 1) with i by lia. rewrite Hi.
  repeat split; try done; try lia. by eapply lookup_lt_Some.
Qed.

(** C3.  A batch of [call_later] calls is made on a scheduler with no
    timer pending, each call with its own clock reading, and the timer loop
    of [run] then runs any number of times, at any clock readings.  The
    functions appended to the ready queue are those of the calls [idx], in
    that order: each call at most once, every earlier one due before every
    later one (smaller deadline [now + delay], or the same deadline and
    made earlier), and a call is among them exactly when its deadline lies
    before the reading of one of the passes. *)
Theorem timers_fire_in_order (s : Scheduler) (calls : list timer_call) (nows : list Z) :
  sleeping s = [] →
  ∃ idx : list nat,
    ready (wake_all nows (call_later_all calls s)) = ready s ++ (call_func calls <$> idx)
    ∧ Forall (λ i, i < length calls) idx
    ∧ NoDup idx
    ∧ StronglySorted (due_before calls) idx
    ∧ ∀ i, i < length calls →
        (i ∈ idx ↔ ∃ now, now ∈ nows ∧ (call_deadline calls i < now)%Z).
Proof.
  intros Hempty.
  assert (Hinv0 : heap_inv (sleeping s)).
  { rewrite Hempty. intros i Hi. simpl in Hi. lia. }
  destruct (call_later_all_spec calls s Hinv0) as (Hinv & Hperm & Hready).
  rewrite Hempty, app_nil_r in Hperm.
  destruct (wake_all_spec nows _ Hinv) as (D & H1 & H2 & H3 & H4 & H5).
  set (seq0 := sequence s) in *.
  set (s2 := wake_all nows (call_later_all calls s)) in *.
  set (ix := λ d : entry, seq_of d - seq0 - 1).
  assert (HD : ∀ d, d ∈ D → d ∈ timer_entries seq0 calls).
  { intros d Hd. rewrite <-Hperm, H2. apply elem_of_app. by left. }
  assert (Hnd : NoDup (seq_of <$> D)).
  { pose proof (timer_entries_seq_NoDup seq0 calls) as Hn.
    rewrite <-Hperm, H2, fmap_app in Hn. by apply NoDup_app in Hn as [? _]. }
  exists (ix <$> D). rewrite H1, Hready.
  split; [|split; [|split; [|split]]].
  - f_equal. rewrite <-list_fmap_compose. apply Forall_fmap_ext_1, Forall_forall.
    intros d Hd. simpl. symmetry. by apply (timer_entries_call seq0 calls d (HD d Hd)).
  - apply Forall_fmap, Forall_forall. intros d Hd. simpl.
    by apply (timer_entries_call seq0 calls d (HD d Hd)).
  - apply NoDup_fmap_2_strong; [|by eapply NoDup_fmap_1].
    intros d d' Hd Hd' Heq.
    assert (seq_of d = seq_of d') as Hs.
    { destruct (timer_entries_call seq0 calls d (HD d Hd)) as [-> _].
      destruct (timer_entries_call seq0 calls d' (HD d' Hd')) as [-> _].
      fold (ix d) (ix d'). by rewrite Heq. }
    clear -Hs Hnd Hd Hd'.
    induction D as [|x D IH]; [by apply elem_of_nil in Hd|].
    rewrite fmap_cons in Hnd. apply NoDup_cons in Hnd as [Hx Hnd].
    apply elem_of_cons in Hd as [->|Hd]; apply elem_of_cons in Hd' as [->|Hd']; try done.
    + exfalso. apply Hx. rewrite Hs. by apply list_elem_of_fmap_2.
    + exfalso. apply Hx. rewrite <-Hs. by apply list_elem_of_fmap_2.
    + by apply IH.
  - clear H1 H2 H4 H5. induction H3 as [|d D Hs IHs Hd]; [constructor|].
    rewrite fmap_cons in Hnd. apply NoDup_cons in Hnd as [Hx Hnd].
    rewrite fmap_cons. constructor.
    { apply IHs; [|done]. intros ??. apply HD. by right. }
    apply Forall_fmap, Forall_forall. intros d' Hd'. simpl.
    rewrite Forall_forall in Hd. specialize (Hd d' Hd').
    assert (seq_of d ≠ seq_of d') as Hne.
    { intros Heq. apply Hx. rewrite Heq. by apply list_elem_of_fmap_2. }
    destruct (timer_entries_call seq0 calls d (HD d ltac:(by left))) as (E1 & _ & E2 & _).
    destruct (timer_entries_call seq0 calls d' (HD d' ltac:(by right))) as (F1 & _ & F2 & _).
    unfold due_before, ix. rewrite E2, F2. unfold key_le in Hd. lia.
  - intros i Hi. split.
    + intros (d & -> & Hd)%list_elem_of_fmap.
      destruct (H4 d Hd) as (now & Hn & Hlt). exists now. split; [done|].
      destruct (timer_entries_call seq0 calls d (HD d Hd)) as (_ & _ & E & _).
      unfold ix. by rewrite E.
    + intros (now & Hn & Hlt). unfold call_deadline in Hlt.
      destruct (calls !! i) as [c|] eqn:Hc.
      2:{ apply lookup_ge_None in Hc. lia. }
      set (e := ((c.1.1 + c.1.2)%Z, seq0 + i + 1, c.2) : entry).
      assert (He : e ∈ D ++ sleeping s2).
      { rewrite <-H2, Hperm. apply timer_entries_elem. by exists i, c. }
      apply elem_of_app in He as [He|He].
      * apply list_elem_of_fmap. exists e. split; [|done].
        unfold ix, e, seq_of. simpl. lia.
      * specialize (H5 e now He Hn).
        unfold e, deadline_of in H5. simpl in H5. lia.
Qed.

Lemma timers_fire_in_order_witness :
  let calls := [(0, 5, FuncRef 0); (0, 3, FuncRef 1); (2, 3, FuncRef 2)]%Z in
  sleeping Scheduler_init = []
  ∧ ∃ idx : list nat,
      ready (wake_all [10%Z] (call_later_all calls Scheduler_init))
      = ready Scheduler_init ++ (call_func calls <$> idx)
      ∧ Forall (λ i, i < length calls) idx
      ∧ NoDup idx
      ∧ StronglySorted (due_before calls) idx
      ∧ ∀ i, i < length calls →
          (i ∈ idx ↔ ∃ now, now ∈ [10%Z] ∧ (call_deadline calls i < now)%Z).
Proof.
  split; [reflexivity|].
  apply (timers_fire_in_order Scheduler_init
           [(0, 5, FuncRef 0); (0, 3, FuncRef 1); (2, 3, FuncRef 2)]%Z [10%Z]).
  reflexivity.
Defined.

(** The same batch, evaluated: the call with the earliest deadline comes
    first, the two with equal deadlines follow in the order of their
    calls; a pass at an earlier reading leaves them all asleep. *)
Lemma timers_fire_in_order_example :
  let calls := [(0, 5, FuncRef 0); (0, 3, FuncRef 1); (2, 3, FuncRef 2)]%Z in
  ready (wake_all [10%Z] (call_later_all calls Scheduler_init))
  = [FuncRef 1; FuncRef 0; FuncRef 2]
  ∧ ready (wake_all [3%Z] (call_later_all calls Scheduler_init)) = []
  ∧ ready (wake_all [4%Z; 10%Z] (call_later_all calls Scheduler_init))
    = [FuncRef 1; FuncRef 0; FuncRef 2].
Proof. repeat split; by vm_compute. Qed.

(** * Further properties of the code *)

(** ** The queue is first in, first out *)

Lemma put_all_open xs qu s :
  _closed qu = false →
  apply_ops (OpPut <$> xs) (qu, s)
  = (mkAsyncQueue (items qu ++ xs) (drop (length xs) (waiting qu)) false,
     set_ready (ready s ++ take (length xs) (waiting qu)) s).
Proof.
  revert qu s. induction xs as [|x xs IH]; intros qu s Hc.
  - destruct qu, s; simpl in *. subst. by rewrite !app_nil_r.
  - unfold apply_ops in *. cbn [fmap list_fmap foldl apply_op fst snd].
    rewrite put_open by done. rewrite IH by done. simpl.
    rewrite <-!app_assoc, drop_drop. unfold set_ready. simpl.
    do 3 f_equal. destruct (waiting qu); simpl; [by rewrite take_nil|done].
Qed.

Lemma get_n_items xs its wt c s :
  get_n (length xs) (mkAsyncQueue (xs ++ its) wt c, s)
  = (GetReturns <$> xs, (mkAsyncQueue its wt c, s)).
Proof.
  induction xs as [|x xs IH]; [done|].
  cbn [length get_n fst snd]. unfold get at 1. simpl. by rewrite IH.
Qed.

(** X1.  Items leave the queue in the order in which they were put: after
    [put] of the items [xs], one after the other, on an open queue without
    buffered items, as many calls of [get] return exactly [xs], in that
    order, without suspending, and leave the queue empty.  Each [put] moves
    one waiting task to the back of the ready queue, front waiter first, as
    long as there are waiters. *)
Theorem queue_fifo (xs : list value) (wt : list callable) (s : Scheduler) :
  get_n (length xs) (apply_ops (OpPut <$> xs) (mkAsyncQueue [] wt false, s))
  = (GetReturns <$> xs,
     (mkAsyncQueue [] (drop (length xs) wt) false,
      set_ready (ready s ++ take (length xs) wt) s)).
Proof.
  rewrite put_all_open by done. simpl.
  rewrite <-(app_nil_r xs) at 2. apply get_n_items.
Qed.

(** ** A closed queue stays closed *)

Lemma apply_op_closed o st :
  _closed st.1 = true →
  _closed (apply_op o st).1 = true
  ∧ items (apply_op o st).1 `suffix_of` items st.1
  ∧ waiting (apply_op o st).1 `suffix_of` waiting st.1.
Proof.
  destruct st as [[its wt c] s]. simpl. intros ->.
  destruct o as [x|t|]; simpl.
  - done.
  - rewrite get_closed. destruct its; simpl; repeat split; try done.
    by apply suffix_cons_r.
  - rewrite close_eq. simpl. destruct wt, its; simpl; repeat split; try done.
    by apply suffix_cons_r.
Qed.

(** X2.  Nothing reopens a queue and nothing enters a closed one: along
    every sequence of [put], [get] and [close] that starts on a closed
    queue, the queue stays closed, its items are always a suffix of the
    items it held at the start (buffered items can still be taken, none is
    added) and so are its waiting tasks (no task starts to wait). *)
Theorem closed_is_final (ops : list op) (st : AsyncQueue * Scheduler) :
  _closed st.1 = true →
  _closed (apply_ops ops st).1 = true
  ∧ items (apply_ops ops st).1 `suffix_of` items st.1
  ∧ waiting (apply_ops ops st).1 `suffix_of` waiting st.1.
Proof.
  revert st. unfold apply_ops.
  induction ops as [|o ops IH]; intros st Hc; simpl; [done|].
  destruct (apply_op_closed o st Hc) as (H1 & H2 & H3).
  destruct (IH _ H1) as (G1 & G2 & G3).
  repeat split; [done|by etrans..].
Qed.

Lemma closed_is_final_witness :
  let ops := [OpPut (VInt 1); OpGet (TaskRef 0); OpClose; OpGet (TaskRef 1)] in
  let st := (mkAsyncQueue [VInt 0] [] true, Scheduler_init) in
  _closed (apply_ops ops st).1 = true
  ∧ items (apply_ops ops st).1 `suffix_of` items st.1
  ∧ waiting (apply_ops ops st).1 `suffix_of` waiting st.1.
Proof.
  apply (closed_is_final
           [OpPut (VInt 1); OpGet (TaskRef 0); OpClose; OpGet (TaskRef 1)]
           (mkAsyncQueue [VInt 0] [] true, Scheduler_init)).
  reflexivity.
Defined.

(** ** Readiness tables *)

Lemma foldr_delete_commute (fd : nat) (fds : list nat) (table : gmap nat callable) :
  foldr delete (delete fd table) fds = delete fd (foldr delete table fds).
Proof.
  induction fds as [|x fds IH]; simpl; [done|].
  by rewrite IH, delete_delete.
Qed.

Lemma pop_all_ok (fds : list nat) (table : gmap nat callable) (rdy : list callable) :
  match pop_all fds table rdy with
  | (Returns, table', rdy') =>
      NoDup fds ∧ Forall (λ fd, is_Some (table !! fd)) fds
      ∧ table' = foldr delete table fds
      ∧ rdy' = rdy ++ ((table !!!.) <$> fds)
  | (Raises e, _, _) =>
      e = KeyError ∧ ¬ (NoDup fds ∧ Forall (λ fd, is_Some (table !! fd)) fds)
  end.
Proof.
  revert table rdy. induction fds as [|fd fds IH]; intros table rdy; simpl.
  - rewrite app_nil_r. repeat split; [constructor|constructor].
  - destruct (table !! fd) as [func|] eqn:Hfd.
    2:{ split; [done|]. intros [_ Hall]. apply Forall_cons in Hall as [[? Hs] _]. congruence. }
    specialize (IH (delete fd table) (rdy ++ [func])).
    destruct (pop_all fds (delete fd table) (rdy ++ [func])) as [[[|ex] table'] rdy'].
    + destruct IH as (Hnd & Hall & -> & ->).
      assert (Hnotin : fd ∉ fds).
      { intros Hin. rewrite Forall_forall in Hall. destruct (Hall fd Hin) as [? Hs].
        by rewrite lookup_delete_eq in Hs. }
      split; [by constructor|]. split; [|split].
      * constructor; [by eexists|]. eapply Forall_impl; [exact Hall|].
        intros x [y Hy]. apply lookup_delete_Some in Hy as [_ Hy]. by eexists.
      * apply foldr_delete_commute.
      * rewrite <-app_assoc. simpl. do 2 f_equal.
        { by rewrite lookup_total_alt, Hfd. }
        apply Forall_fmap_ext_1, Forall_forall. intros x Hx.
        rewrite !lookup_total_alt, lookup_delete_ne; [done|]. by intros ->.
    + destruct IH as [-> Hnot]. split; [done|]. intros [Hnd Hall]. apply Hnot.
      apply NoDup_cons in Hnd as [Hnotin Hnd]. apply Forall_cons in Hall as [_ Hall].
      split; [done|]. rewrite Forall_forall in Hall |- *. intros x Hx.
      rewrite lookup_delete_ne; [by apply Hall|]. by intros ->.
Qed.

(** X3.  The loops [for fd in can_read: self.ready.append(table.pop(fd))]
    of [run].  They end normally exactly when the reported descriptors are
    pairwise distinct and all registered; then every reported descriptor
    has left the table and its function stands at the back of the ready
    queue, in the order of the report.  Otherwise the loop raises
    [KeyError]: a descriptor that is not registered, or that is reported
    twice, is not skipped. *)
Theorem pop_all_spec (fds : list nat) (table : gmap nat callable) (rdy : list callable) :
  match pop_all fds table rdy with
  | (Returns, table', rdy') =>
      NoDup fds ∧ Forall (λ fd, is_Some (table !! fd)) fds
      ∧ table' = foldr delete table fds
      ∧ rdy' = rdy ++ ((table !!!.) <$> fds)
  | (Raises e, _, _) =>
      e = KeyError ∧ ¬ (NoDup fds ∧ Forall (λ fd, is_Some (table !! fd)) fds)
  end.
Proof. apply pop_all_ok. Qed.

Lemma pop_all_filter (rep : list nat) (table : gmap nat callable) rdy :
  NoDup rep →
  let fds := filter (λ fd, is_Some (table !! fd)) rep in
  pop_all fds table rdy = (Returns, foldr delete table fds, rdy ++ ((table !!!.) <$> fds)).
Proof.
  intros Hnd fds. pose proof (pop_all_ok fds table rdy) as H.
  destruct (pop_all fds table rdy) as [[[|ex] table'] rdy'].
  - by destruct H as (_ & _ & -> & ->).
  - destruct H as [_ Hnot]. exfalso. apply Hnot. split.
    + by apply NoDup_filter.
    + apply Forall_forall. intros x Hx. by apply list_elem_of_filter in Hx as [? _].
Qed.

(** ** One pass of [run] over [select] and the timers *)

Lemma wake_loop_fields fuel now s :
  sequence (wake_loop fuel now s) = sequence s
  ∧ _read_waiting (wake_loop fuel now s) = _read_waiting s
  ∧ _write_waiting (wake_loop fuel now s) = _write_waiting s
  ∧ current (wake_loop fuel now s) = current s.
Proof.
  revert s. induction fuel as [|fuel IH]; intros s; cbn [wake_loop]; [done|].
  destruct (sleeping s !! 0) as [top|]; [|done]. case_bool_decide; [|done].
  destruct (heappop (sleeping s)) as [[popped rest]|]; [|done].
  by destruct (IH (mkScheduler (ready s ++ [func_of popped]) rest (sequence s)
                     (_read_waiting s) (_write_waiting s) (current s))) as (-> & -> & -> & ->).
Qed.

Lemma select_blocks (cr cw : list nat) (timeout : option Z) :
  match timeout, cr, cw with
  | None, [], [] => None
  | _, _, _ => Some (cr, cw)
  end
  = if bool_decide (timeout = None ∧ cr = [] ∧ cw = [])
    then None else Some (cr, cw).
Proof.
  destruct timeout, cr, cw; simpl; try reflexivity;
    case_bool_decide as Hb; try done; by destruct Hb as (? & ? & ?).
Qed.

Lemma select_timeout_None now s : select_timeout now s = None ↔ sleeping s = [].
Proof. unfold select_timeout. by destruct (sleeping s). Qed.

Lemma poll_eq (ev : event) (s : Scheduler) :
  NoDup (ev_read ev) → NoDup (ev_write ev) →
  let can_read := filter (λ fd, is_Some (_read_waiting s !! fd)) (ev_read ev) in
  let can_write := filter (λ fd, is_Some (_write_waiting s !! fd)) (ev_write ev) in
  poll ev s =
    if bool_decide (sleeping s = [] ∧ can_read = [] ∧ can_write = [])
    then PollBlocked
    else PollDone
           (wake_sleeping (ev_now ev)
              (mkScheduler
                 (ready s ++ ((_read_waiting s !!!.) <$> can_read)
                          ++ ((_write_waiting s !!!.) <$> can_write))
                 (sleeping s) (sequence s)
                 (foldr delete (_read_waiting s) can_read)
                 (foldr delete (_write_waiting s) can_write)
                 (current s))).
Proof.
  intros Hr Hw can_read can_write. unfold poll, select.
  fold can_read can_write. rewrite select_blocks.
  rewrite (bool_decide_ext _ (sleeping s = [] ∧ can_read = [] ∧ can_write = []))
    by (by rewrite select_timeout_None).
  case_bool_decide; [done|].
  unfold can_read at 1. rewrite pop_all_filter by done. fold can_read.
  unfold can_write at 1. rewrite pop_all_filter by done. fold can_write.
  by rewrite <-app_assoc.
Qed.

(** X4.  The block of [run] that is entered with an empty ready queue, when
    the host reports no descriptor twice.  Of the reported descriptors only
    the registered ones count.  With no timer pending and none of them
    registered, [select] has no timeout and nothing to report: the loop
    blocks.  Otherwise the pass never raises; it appends to the ready queue
    first the readers, then the writers, each group in the order of the
    report, removes exactly these from the two tables, and then runs the
    timer loop at the new clock reading. *)
Theorem poll_spec (ev : event) (s : Scheduler) :
  NoDup (ev_read ev) → NoDup (ev_write ev) →
  let can_read := filter (λ fd, is_Some (_read_waiting s !! fd)) (ev_read ev) in
  let can_write := filter (λ fd, is_Some (_write_waiting s !! fd)) (ev_write ev) in
  poll ev s =
    if bool_decide (sleeping s = [] ∧ can_read = [] ∧ can_write = [])
    then PollBlocked
    else PollDone
           (wake_sleeping (ev_now ev)
              (mkScheduler
                 (ready s ++ ((_read_waiting s !!!.) <$> can_read)
                          ++ ((_write_waiting s !!!.) <$> can_write))
                 (sleeping s) (sequence s)
                 (foldr delete (_read_waiting s) can_read)
                 (foldr delete (_write_waiting s) can_write)
                 (current s))).
Proof. apply poll_eq. Qed.

Lemma poll_spec_witness :
  let ev := mkEvent 0 [3; 4] [5] 10 in
  let s := write_wait 5 (TaskRef 1) (read_wait 3 (TaskRef 0) Scheduler_init) in
  poll ev s
  = PollDone (mkScheduler [TaskRef 0; TaskRef 1] [] 0 ∅ ∅ PyNone).
Proof.
  intros ev s.
  assert (Hr : NoDup (ev_read ev)).
  { apply NoDup_cons. split; [|apply NoDup_singleton].
    intros Hin. apply list_elem_of_singleton in Hin. discriminate Hin. }
  assert (Hw : NoDup (ev_write ev)) by apply NoDup_singleton.
  rewrite (poll_spec ev s Hr Hw).
  reflexivity.
Defined.

(** X5.  The timeout [run] hands to [select].  With the sleeping list in
    heap shape it is [None] exactly when no timer is pending; otherwise it
    is the time left to the earliest deadline of all pending timers, and 0
    when that deadline has passed: never negative, and never later than any
    pending deadline. *)
Theorem select_timeout_earliest (now : Z) (s : Scheduler) :
  heap_inv (sleeping s) →
  match select_timeout now s with
  | None => sleeping s = []
  | Some t =>
      (0 ≤ t)%Z
      ∧ (∃ e, e ∈ sleeping s ∧ t = Z.max 0 (deadline_of e - now))
      ∧ ∀ e, e ∈ sleeping s → (t ≤ Z.max 0 (deadline_of e - now))%Z
  end.
Proof.
  intros Hinv. unfold select_timeout.
  destruct (sleeping s !! 0) as [top|] eqn:Htop.
  2:{ by destruct (sleeping s). }
  assert (Hm : (if bool_decide (deadline_of top - now < 0)%Z then 0%Z
                else (deadline_of top - now)%Z) = Z.max 0 (deadline_of top - now)).
  { case_bool_decide; lia. }
  rewrite Hm. split; [lia|]. split.
  - exists top. split; [|done]. by eapply list_elem_of_lookup_2.
  - intros e [i Hi]%list_elem_of_lookup.
    pose proof (heap_root_least _ i Hinv (lookup_lt_Some _ _ _ Hi)) as Hle.
    rewrite (list_lookup_total_correct _ _ _ Htop), (list_lookup_total_correct _ _ _ Hi) in Hle.
    unfold key_le in Hle. lia.
Qed.

(** X6.  The timer loop of [run] at the clock reading [now], on a sleeping
    list in heap shape.  It moves to the back of the ready queue exactly
    the timers whose deadline lies strictly before [now], earliest deadline
    first and, among equal deadlines, in the order of their sequence
    numbers; a timer whose deadline equals [now] stays asleep.  No timer is
    lost or duplicated, and the list that remains is again in heap
    shape. *)
Theorem wake_sleeping_delivers_expired (now : Z) (s : Scheduler) :
  heap_inv (sleeping s) →
  ∃ D : list entry,
    ready (wake_sleeping now s) = ready s ++ (func_of <$> D)
    ∧ sleeping s ≡ₚ D ++ sleeping (wake_sleeping now s)
    ∧ StronglySorted key_le D
    ∧ Forall (λ d, (deadline_of d < now)%Z) D
    ∧ Forall (λ e, (now ≤ deadline_of e)%Z) (sleeping (wake_sleeping now s))
    ∧ heap_inv (sleeping (wake_sleeping now s)).
Proof.
  intros Hinv.
  destruct (wake_loop_spec (length (sleeping s)) now s Hinv)
    as (D & H1 & H2 & H3 & H4 & H5 & H6); [done|].
  exists D. rewrite !Forall_forall. done.
Qed.

(** ** The timers stay in order *)

Lemma timers_ok_same s s' :
  sleeping s' = sleeping s → sequence s' = sequence s → timers_ok s → timers_ok s'.
Proof. unfold timers_ok. by intros -> ->. Qed.

Lemma timers_ok_init : timers_ok Scheduler_init.
Proof.
  split; [|split]; simpl; [|constructor..].
  intros j Hj. simpl in Hj. lia.
Qed.

Lemma call_later_timers_ok now delay func s :
  timers_ok s → timers_ok (call_later now delay func s).
Proof.
  intros (Hinv & Hnd & Hall).
  destruct (call_later_spec now delay func s Hinv) as (H1 & H2 & H3 & _).
  split; [done|]. rewrite H2, H3. split.
  - rewrite fmap_cons. constructor; [|done].
    intros (e & He & Hin)%list_elem_of_fmap.
    rewrite Forall_forall in Hall. specialize (Hall e Hin).
    unfold seq_of in *. simpl in He. lia.
  - constructor; [unfold seq_of; simpl; lia|].
    eapply Forall_impl; [done|]. intros e He. simpl in He. lia.
Qed.

Lemma wake_sleeping_timers_ok now s :
  timers_ok s → timers_ok (wake_sleeping now s).
Proof.
  intros (Hinv & Hnd & Hall). unfold wake_sleeping.
  destruct (wake_loop_spec (length (sleeping s)) now s Hinv)
    as (D & _ & Hperm & Hinv' & _); [done|].
  destruct (wake_loop_fields (length (sleeping s)) now s) as (Hseq & _).
  split; [done|]. rewrite Hseq. rewrite Hperm in Hnd, Hall. split.
  - rewrite fmap_app in Hnd. by apply NoDup_app in Hnd as (_ & _ & ?).
  - by apply Forall_app in Hall as [_ ?].
Qed.

Lemma poll_timers_ok ev s :
  timers_ok s →
  match poll ev s with
  | PollDone s' | PollRaises _ s' => timers_ok s'
  | PollBlocked => True
  end.
Proof.
  intros Hok. unfold poll.
  destruct (select _ _ _ _) as [[can_read can_write]|]; [|done].
  destruct (pop_all can_read _ _) as [[[|e] rd] rdy]; [|by apply (timers_ok_same s)].
  destruct (pop_all can_write _ _) as [[[|e] wr] rdy']; [|by apply (timers_ok_same s)].
  apply wake_sleeping_timers_ok. by apply (timers_ok_same s).
Qed.

Lemma queue_ops_timers item qu s :
  (sleeping (put item qu s).2 = sleeping s ∧ sequence (put item qu s).2 = sequence s)
  ∧ (sleeping (get qu s).2 = sleeping s ∧ sequence (get qu s).2 = sequence s)
  ∧ (sleeping (close qu s).2 = sleeping s ∧ sequence (close qu s).2 = sequence s).
Proof.
  unfold put, get. rewrite close_eq.
  destruct qu as [[|v its] [|t wt] [|]]; simpl; done.
Qed.

Lemma coro_send_timers_ok c w :
  timers_ok (sched w) → timers_ok (sched (coro_send c w).2).
Proof.
  revert w. induction c as [| | | | | | |item k IHk h IHh|k IHk h IHh|k IHk
                           |c' _ k IHk|f k IHk|d f k IHk|v k IHk];
    intros w Hok; simpl; try done.
  - apply (timers_ok_same (call_later (clock w) delay (current (sched w)) (sched w)));
      [done..|]. by apply call_later_timers_ok.
  - destruct (queue_ops_timers item (q w) (sched w)) as ([H1 H2] & _).
    destruct (put item (q w) (sched w)) as [[[|e] q'] s'];
      [apply IHk|apply IHh]; by apply (timers_ok_same (sched w)).
  - destruct (queue_ops_timers VNone (q w) (sched w)) as (_ & [H1 H2] & _).
    destruct (get (q w) (sched w)) as [[[v|e|] q'] s'];
      [apply IHk|apply IHh|]; by apply (timers_ok_same (sched w)).
  - destruct (queue_ops_timers VNone (q w) (sched w)) as (_ & _ & [H1 H2]).
    apply IHk. by apply (timers_ok_same (sched w)).
  - apply IHk. by apply (timers_ok_same (sched w)).
  - apply IHk. by apply (timers_ok_same (sched w)).
  - apply IHk. simpl. by apply call_later_timers_ok.
  - by apply IHk.
Qed.

Lemma Task_call_timers_ok t w :
  timers_ok (sched w) → timers_ok (sched (Task_call t w).2).
Proof.
  intros Hok. unfold Task_call.
  set (w1 := set_sched _ w).
  assert (Hok1 : timers_ok (sched w1)) by (by apply (timers_ok_same (sched w))).
  destruct (tasks w1 !! t) as [[c|]|]; [|done..].
  unfold Task_drive. pose proof (coro_send_timers_ok c w1 Hok1) as H.
  destruct (coro_send c w1) as [[k| |e] w2]; simpl in *; [|done..].
  destruct (truthy (current (sched w2))); [|done].
  by apply (timers_ok_same (sched w2)).
Qed.

Lemma select_timeout_earliest_witness :
  let s := call_later 0 3 (FuncRef 1) (call_later 0 5 (FuncRef 0) Scheduler_init) in
  heap_inv (sleeping s)
  ∧ match select_timeout 1 s with
    | None => sleeping s = []
    | Some t =>
        (0 ≤ t)%Z
        ∧ (∃ e, e ∈ sleeping s ∧ t = Z.max 0 (deadline_of e - 1))
        ∧ ∀ e, e ∈ sleeping s → (t ≤ Z.max 0 (deadline_of e - 1))%Z
    end.
Proof.
  intros s.
  assert (H : heap_inv (sleeping s)).
  { apply call_later_timers_ok, call_later_timers_ok, timers_ok_init. }
  split; [exact H|]. exact (select_timeout_earliest 1 s H).
Defined.

Lemma wake_sleeping_delivers_expired_witness :
  let s := call_later 0 3 (FuncRef 1) (call_later 0 5 (FuncRef 0) Scheduler_init) in
  heap_inv (sleeping s)
  ∧ ∃ D : list entry,
      ready (wake_sleeping 5 s) = ready s ++ (func_of <$> D)
      ∧ sleeping s ≡ₚ D ++ sleeping (wake_sleeping 5 s)
      ∧ StronglySorted key_le D
      ∧ Forall (λ d, (deadline_of d < 5)%Z) D
      ∧ Forall (λ e, (5 ≤ deadline_of e)%Z) (sleeping (wake_sleeping 5 s))
      ∧ heap_inv (sleeping (wake_sleeping 5 s)).
Proof.
  intros s.
  assert (H : heap_inv (sleeping s)).
  { apply call_later_timers_ok, call_later_timers_ok, timers_ok_init. }
  split; [exact H|]. exact (wake_sleeping_delivers_expired 5 s H).
Defined.

Lemma countdown_timers_ok f w :
  timers_ok (sched w) → timers_ok (sched (countdown f w).2).
Proof. destruct f; simpl; [done|]. apply call_later_timers_ok. Qed.

Section TimersInvariant.

Variable funcs : nat → World → outcome * World.
Hypothesis funcs_ok : ∀ f w, timers_ok (sched w) → timers_ok (sched (funcs f w).2).

Lemma call_timers_ok func w :
  timers_ok (sched w) → timers_ok (sched (call funcs func w).2).
Proof.
  destruct func as [|t|f]; simpl; [done| apply Task_call_timers_ok | apply funcs_ok].
Qed.

Lemma drain_timers_ok fuel w :
  timers_ok (sched w) → timers_ok (sched (drain funcs fuel w).2).
Proof.
  revert w. induction fuel as [|fuel IH]; intros w Hok; simpl.
  - by destruct (ready (sched w)).
  - destruct (ready (sched w)) as [|func rest] eqn:Hr; [done|].
    set (w1 := set_sched _ w).
    assert (Hok1 : timers_ok (sched w1)) by (by apply (timers_ok_same (sched w))).
    pose proof (call_timers_ok func w1 Hok1) as H.
    destruct (call funcs func w1) as [[|e] w']; [by apply IH|done].
Qed.

Lemma iteration_timers_ok fuel env w :
  timers_ok (sched w) → timers_ok (sched (iteration funcs fuel env w).2).
Proof.
  intros Hok. unfold iteration.
  destruct (ready (sched w)) as [|func rest] eqn:Hr.
  - destruct env as [|ev env']; [done|].
    pose proof (poll_timers_ok ev (sched w) Hok) as H.
    destruct (poll ev (sched w)) as [s'|e s'|]; [|done..].
    pose proof (drain_timers_ok fuel (set_clock (ev_now ev) (set_sched s' w)) H) as H'.
    by destruct (drain funcs fuel _).
  - pose proof (drain_timers_ok fuel w Hok) as H'.
    by destruct (drain funcs fuel w).
Qed.

(** X7.  The sleeping list is a heap with unique sequence numbers at every
    point of a run.  If the timers are in order (heap shape, pairwise
    distinct sequence numbers, none above the counter) when [run] starts,
    and the plain callbacks keep them so, then they are in order in every
    state [run] reaches, however it ends and whatever the coroutines do:
    [call_later], [sleep], the queue operations, the socket waits and the
    timer loop all preserve it. *)
Theorem run_keeps_timers fuel env w :
  timers_ok (sched w) → timers_ok (sched (run funcs fuel env w).2).
Proof.
  revert env w. induction fuel as [|fuel IH]; intros env w Hok; simpl; [done|].
  destruct (busy (sched w)); [|done].
  pose proof (iteration_timers_ok fuel env w Hok) as H.
  destruct (iteration funcs fuel env w) as [[r env'] w']. simpl in H.
  destruct r; try done. by apply IH.
Qed.

End TimersInvariant.

Lemma run_keeps_timers_witness :
  let w0 := new_task (AwaitSleep 1 (AwaitSleep 1 Return)) World_init in
  let w := set_sched (call_soon (FuncRef 2) (sched w0)) w0 in
  let env := [mkEvent 0 [] [] 2; mkEvent 2 [] [] 5; mkEvent 5 [] [] 10] in
  timers_ok (sched w) ∧ timers_ok (sched (run countdown 9 env w).2).
Proof.
  intros w0 w env.
  assert (H : timers_ok (sched w)).
  { apply (timers_ok_same Scheduler_init); [reflexivity..|apply timers_ok_init]. }
  split; [exact H|].
  exact (run_keeps_timers countdown countdown_timers_ok 9 env w H).
Defined.

(** ** Suspension points: sleep and socket waits *)

(** X8.  A task that reaches [await sched.sleep(delay)] is not put back on
    the ready queue: its invocation returns with the coroutine suspended
    behind the sleep, [current] cleared and one new timer for the task,
    due [delay] after the clock reading.  A later pass of the timer loop at
    the reading [now] puts the task on the ready queue if its deadline lies
    strictly before [now] and leaves it asleep otherwise. *)
Theorem sleep_wakes_after_delay (t : nat) (delay : Z) (k : coro) (w : World) (now : Z) :
  tasks w !! t = Some (Suspended (AwaitSleep delay k)) →
  heap_inv (sleeping (sched w)) →
  let e : entry := ((clock w + delay)%Z, sequence (sched w) + 1, TaskRef t) in
  ∃ w', Task_call t w = (Returns, w')
    ∧ tasks w' !! t = Some (Suspended k)
    ∧ ready (sched w') = ready (sched w)
    ∧ current (sched w') = PyNone
    ∧ sleeping (sched w') ≡ₚ e :: sleeping (sched w)
    ∧ ∃ D, ready (wake_sleeping now (sched w')) = ready (sched w) ++ (func_of <$> D)
        ∧ ((clock w + delay < now)%Z → e ∈ D)
        ∧ ((now ≤ clock w + delay)%Z →
             (e ∉ D) ∧ e ∈ sleeping (wake_sleeping now (sched w'))).
Proof.
  intros Ht Hinv e. unfold Task_call. simpl. rewrite Ht. unfold Task_drive. simpl.
  eexists. split; [done|]. simpl.
  destruct (heappush_ok (sleeping (sched w)) e Hinv) as [Hinv' Hperm].
  split; [apply list_lookup_insert_eq; by eapply lookup_lt_Some|].
  split; [done|]. split; [done|]. split; [done|].
  pose (s' := sleep (clock w) delay (set_current (TaskRef t) (sched w))).
  destruct (wake_loop_spec (length (sleeping s')) now s' Hinv')
    as (D & H1 & H2 & _ & _ & H5 & H6); [done|].
  exists D. split; [exact H1|].
  assert (He : e ∈ D ++ sleeping (wake_sleeping now s')).
  { unfold wake_sleeping. rewrite <-H2.
    change (e ∈ heappush (sleeping (sched w)) e). rewrite Hperm. by left. }
  apply elem_of_app in He. split.
  - intros Hlt. destruct He as [He|He]; [done|].
    specialize (H6 e He). unfold e, deadline_of in H6. simpl in H6. lia.
  - intros Hle. assert (e ∉ D) as Hn.
    { intros Hd. specialize (H5 e Hd). unfold e, deadline_of in H5. simpl in H5. lia. }
    split; [done|]. by destruct He.
Qed.

Lemma sleep_wakes_after_delay_witness :
  let w := new_task (AwaitSleep 1 Return) World_init in
  let e : entry := (1%Z, 1, TaskRef 0) in
  ∃ w', Task_call 0 w = (Returns, w')
    ∧ tasks w' !! 0 = Some (Suspended Return)
    ∧ ready (sched w') = [TaskRef 0]
    ∧ current (sched w') = PyNone
    ∧ sleeping (sched w') ≡ₚ [e]
    ∧ ∃ D, ready (wake_sleeping 2 (sched w')) = [TaskRef 0] ++ (func_of <$> D)
        ∧ ((0 + 1 < 2)%Z → e ∈ D)
        ∧ ((2 ≤ 0 + 1)%Z → (e ∉ D) ∧ e ∈ sleeping (wake_sleeping 2 (sched w'))).
Proof.
  intros w e.
  apply (sleep_wakes_after_delay 0 1 Return w 2); [reflexivity|].
  intros i Hi. simpl in Hi. lia.
Defined.

(** X9.  Waiting for a socket to become readable ([recv] and [accept]).
    The task's invocation registers the task for the socket and returns
    without putting it back on the ready queue; when [select] then reports
    exactly that socket readable, the task is appended to the ready queue
    and its registration is removed, so one report resumes it once. *)
Theorem recv_round_trip (t sock : nat) (c k : coro) (w : World) (ev : event) :
  c = AwaitRecv sock k ∨ c = AwaitAccept sock k →
  tasks w !! t = Some (Suspended c) →
  ev_read ev = [sock] → ev_write ev = [] →
  ∃ w', Task_call t w = (Returns, w')
    ∧ tasks w' !! t = Some (Suspended k)
    ∧ ready (sched w') = ready (sched w)
    ∧ current (sched w') = PyNone
    ∧ _read_waiting (sched w') = <[sock := TaskRef t]> (_read_waiting (sched w))
    ∧ poll ev (sched w')
      = PollDone
          (wake_sleeping (ev_now ev)
             (mkScheduler (ready (sched w) ++ [TaskRef t]) (sleeping (sched w))
                (sequence (sched w)) (delete sock (_read_waiting (sched w)))
                (_write_waiting (sched w)) PyNone)).
Proof.
  intros Hc Ht Hr Hw. unfold Task_call. simpl. rewrite Ht. unfold Task_drive.
  assert (Hlt : t < length (tasks w)) by (by eapply lookup_lt_Some).
  assert (Hnr : NoDup (ev_read ev)) by (rewrite Hr; apply NoDup_singleton).
  assert (Hnw : NoDup (ev_write ev)) by (rewrite Hw; apply NoDup_nil_2).
  destruct Hc as [-> | ->]; simpl; (eexists; split; [done|]); simpl;
    (split; [by apply list_lookup_insert_eq|]);
    (split; [done|]); (split; [done|]); (split; [done|]);
    rewrite poll_eq by done;
    simpl; rewrite Hr, Hw; simpl;
    rewrite !filter_cons_True by (by rewrite lookup_insert_eq);
    rewrite !filter_nil; simpl;
    (rewrite bool_decide_eq_false_2 by (by intros (_ & ? & _)));
    rewrite lookup_total_insert_eq, delete_insert_eq; done.
Qed.

Lemma recv_round_trip_witness :
  let w := new_task (AwaitRecv 3 Return) World_init in
  let ev := mkEvent 0 [3] [] 1 in
  ∃ w', Task_call 0 w = (Returns, w')
    ∧ tasks w' !! 0 = Some (Suspended Return)
    ∧ ready (sched w') = ready (sched w)
    ∧ current (sched w') = PyNone
    ∧ _read_waiting (sched w') = <[3 := TaskRef 0]> (_read_waiting (sched w))
    ∧ poll ev (sched w')
      = PollDone
          (wake_sleeping (ev_now ev)
             (mkScheduler (ready (sched w) ++ [TaskRef 0]) (sleeping (sched w))
                (sequence (sched w)) (delete 3 (_read_waiting (sched w)))
                (_write_waiting (sched w)) PyNone)).
Proof.
  intros w ev.
  apply (recv_round_trip 0 3 (AwaitRecv 3 Return) Return w ev);
    [by left | reflexivity | reflexivity | reflexivity].
Defined.

(** X10.  Waiting for a socket to become writable ([send]): the same round
    trip through the table of writers. *)
Theorem send_round_trip (t sock : nat) (k : coro) (w : World) (ev : event) :
  tasks w !! t = Some (Suspended (AwaitSend sock k)) →
  ev_read ev = [] → ev_write ev = [sock] →
  ∃ w', Task_call t w = (Returns, w')
    ∧ tasks w' !! t = Some (Suspended k)
    ∧ ready (sched w') = ready (sched w)
    ∧ current (sched w') = PyNone
    ∧ _write_waiting (sched w') = <[sock := TaskRef t]> (_write_waiting (sched w))
    ∧ poll ev (sched w')
      = PollDone
          (wake_sleeping (ev_now ev)
             (mkScheduler (ready (sched w) ++ [TaskRef t]) (sleeping (sched w))
                (sequence (sched w)) (_read_waiting (sched w))
                (delete sock (_write_waiting (sched w))) PyNone)).
Proof.
  intros Ht Hr Hw. unfold Task_call. simpl. rewrite Ht. unfold Task_drive.
  assert (Hlt : t < length (tasks w)) by (by eapply lookup_lt_Some).
  assert (Hnr : NoDup (ev_read ev)) by (rewrite Hr; apply NoDup_nil_2).
  assert (Hnw : NoDup (ev_write ev)) by (rewrite Hw; apply NoDup_singleton).
  simpl. eexists. split; [done|]. simpl.
  split; [by apply list_lookup_insert_eq|].
  split; [done|]. split; [done|]. split; [done|].
  rewrite poll_eq by done.
  simpl. rewrite Hr, Hw. simpl.
  rewrite !filter_cons_True by (by rewrite lookup_insert_eq).
  simpl.
  rewrite bool_decide_eq_false_2 by (by intros (_ & _ & ?)).
  by rewrite lookup_total_insert_eq, delete_insert_eq.
Qed.

Lemma send_round_trip_witness :
  let w := new_task (AwaitSend 4 Return) World_init in
  let ev := mkEvent 0 [] [4] 1 in
  ∃ w', Task_call 0 w = (Returns, w')
    ∧ tasks w' !! 0 = Some (Suspended Return)
    ∧ ready (sched w') = ready (sched w)
    ∧ current (sched w') = PyNone
    ∧ _write_waiting (sched w') = <[4 := TaskRef 0]> (_write_waiting (sched w))
    ∧ poll ev (sched w')
      = PollDone
          (wake_sleeping (ev_now ev)
             (mkScheduler (ready (sched w) ++ [TaskRef 0]) (sleeping (sched w))
                (sequence (sched w)) (_read_waiting (sched w))
                (delete 4 (_write_waiting (sched w))) PyNone)).
Proof.
  intros w ev.
  apply (send_round_trip 0 4 Return w ev); reflexivity.
Defined.

(** X11.  One socket holds one waiter.  When a second task waits for a
    socket on which a first task already waits, its registration replaces
    the first one: both tasks are suspended behind their [recv], neither is
    on the ready queue, and the table names only the second task, so a
    report for the socket can resume only that one. *)
Theorem second_registration_replaces_first
    (t1 t2 sock : nat) (k1 k2 : coro) (w : World) :
  t1 ≠ t2 →
  tasks w !! t1 = Some (Suspended (AwaitRecv sock k1)) →
  tasks w !! t2 = Some (Suspended (AwaitRecv sock k2)) →
  let w2 := (Task_call t2 (Task_call t1 w).2).2 in
  _read_waiting (sched w2) = <[sock := TaskRef t2]> (_read_waiting (sched w))
  ∧ ready (sched w2) = ready (sched w)
  ∧ tasks w2 !! t1 = Some (Suspended k1)
  ∧ tasks w2 !! t2 = Some (Suspended k2).
Proof.
  intros Hne H1 H2.
  assert (Hl1 : t1 < length (tasks w)) by (by eapply lookup_lt_Some).
  assert (Hl2 : t2 < length (tasks w)) by (by eapply lookup_lt_Some).
  unfold Task_call at 2. simpl. rewrite H1. unfold Task_drive. simpl.
  unfold Task_call. simpl. rewrite list_lookup_insert_ne, H2 by done. simpl.
  split; [by rewrite insert_insert_eq|]. split; [done|].
  split.
  - rewrite list_lookup_insert_ne by done. by apply list_lookup_insert_eq.
  - apply list_lookup_insert_eq. by rewrite length_insert.
Qed.

Lemma second_registration_replaces_first_witness :
  let w := new_task (AwaitRecv 3 (Print (VInt 2) Return))
             (new_task (AwaitRecv 3 (Print (VInt 1) Return)) World_init) in
  let w2 := (Task_call 1 (Task_call 0 w).2).2 in
  _read_waiting (sched w2) = <[3 := TaskRef 1]> (_read_waiting (sched w))
  ∧ ready (sched w2) = ready (sched w)
  ∧ tasks w2 !! 0 = Some (Suspended (Print (VInt 1) Return))
  ∧ tasks w2 !! 1 = Some (Suspended (Print (VInt 2) Return)).
Proof.
  intros w.
  apply (second_registration_replaces_first 0 1 3
           (Print (VInt 1) Return) (Print (VInt 2) Return) w);
    [lia | reflexivity | reflexivity].
Defined.

(** ** What leaves [run] *)

(** X12.  [Task.__call__] catches [StopIteration] only.  When the task at
    the front of the ready queue lets any other exception out of its
    coroutine, the exception leaves [run] at once: [run] ends with it, the
    coroutine is finished, and no function behind the task in the ready
    queue is called: the final state is the one in which the coroutine
    raised. *)
Theorem uncaught_exception_leaves_run (funcs : nat → World → outcome * World)
    (fuel : nat) (env : list event) (w w2 : World) (t : nat) (rest : list callable)
    (c : coro) (e : exn) :
  ready (sched w) = TaskRef t :: rest →
  tasks w !! t = Some (Suspended c) →
  coro_send c (set_sched (set_current (TaskRef t) (set_ready rest (sched w))) w)
    = (Propagates e, w2) →
  run funcs (S (S fuel)) env w = (Raised e, set_task t Finished w2).
Proof.
  intros Hr Ht Hsend.
  assert (Hcall : Task_call t (set_sched (set_ready rest (sched w)) w)
                  = (Raises e, set_task t Finished w2)).
  { unfold Task_call. cbv zeta.
    change (set_sched (set_current (TaskRef t)
                         (sched (set_sched (set_ready rest (sched w)) w)))
              (set_sched (set_ready rest (sched w)) w))
      with (set_sched (set_current (TaskRef t) (set_ready rest (sched w))) w).
    change (tasks (set_sched (set_current (TaskRef t) (set_ready rest (sched w))) w))
      with (tasks w).
    rewrite Ht. unfold Task_drive. by rewrite Hsend. }
  assert (Hb : busy (sched w) = true).
  { unfold busy. rewrite Hr. by rewrite bool_decide_eq_true_2. }
  cbn [run]. rewrite Hb. unfold iteration. rewrite Hr. cbn [drain]. rewrite Hr.
  cbn [call]. by rewrite Hcall.
Qed.

Lemma uncaught_exception_leaves_run_witness :
  let w := new_task consumer_once
             (new_task (Close (AwaitPut (VInt 1) Return (Raise QueueClosed))) World_init) in
  ∃ w2, run no_funcs 2 [] w = (Raised QueueClosed, set_task 0 Finished w2)
        ∧ ready (sched w2) = [TaskRef 1].
Proof.
  intros w. eexists. split.
  - apply (uncaught_exception_leaves_run no_funcs 0 [] w _ 0 [TaskRef 1]
             (Close (AwaitPut (VInt 1) Return (Raise QueueClosed))) QueueClosed);
      reflexivity.
  - reflexivity.
Defined.

(** ** The ready queue is first in, first out *)

Lemma call_soon_all (fs : list callable) (s : Scheduler) :
  foldl (λ s f, call_soon f s) s fs = set_ready (ready s ++ fs) s.
Proof.
  revert s. induction fs as [|f fs IH]; intros s; simpl.
  - rewrite app_nil_r. by destruct s.
  - rewrite IH. unfold call_soon, set_ready. simpl. by rewrite <-app_assoc.
Qed.

Section Drain.

Variable funcs : nat → World → outcome * World.

(** X13.  Functions handed to [call_soon] are called once each, in the
    order of the [call_soon] calls.  With an empty ready queue, after
    [call_soon] of the functions [fs] one after the other, none of which
    raises or touches the ready queue, the inner loop of [run] ends after
    exactly one turn for each function of [fs], from first to last, and
    leaves the ready queue empty. *)
Theorem drain_fifo (fs : list callable) (w : World) :
  ready (sched w) = [] →
  (∀ f w0, f ∈ fs →
     (call funcs f w0).1 = Returns
     ∧ ready (sched (call funcs f w0).2) = ready (sched w0)) →
  let w1 := set_sched (foldl (λ s f, call_soon f s) (sched w) fs) w in
  ready (sched w1) = fs
  ∧ drain funcs (length fs) w1 = (Returned, foldl (λ w0 f, turn funcs f w0) w1 fs)
  ∧ ready (sched (foldl (λ w0 f, turn funcs f w0) w1 fs)) = [].
Proof.
  intros Hr Hfs w1.
  assert (Hw1 : ready (sched w1) = fs).
  { unfold w1. simpl. rewrite call_soon_all. simpl. by rewrite Hr. }
  split; [done|]. clearbody w1. clear Hr w.
  revert w1 Hw1. induction fs as [|f fs IH]; intros w Hw; simpl.
  - by rewrite Hw.
  - rewrite Hw. unfold turn at 2 4. rewrite Hw. simpl. rewrite drop_0.
    destruct (Hfs f (set_sched (set_ready fs (sched w)) w) ltac:(by left)) as [Hret Hrdy].
    destruct (call funcs f _) as [r w'] eqn:Hcall. simpl in *. subst r.
    apply IH; [|done]. intros f' w0 Hin. apply Hfs. by right.
Qed.

End Drain.

Lemma drain_fifo_witness :
  let fs := [FuncRef 2; FuncRef 0; FuncRef 1] in
  let w1 := set_sched (foldl (λ s f, call_soon f s) (sched World_init) fs) World_init in
  ready (sched w1) = fs
  ∧ drain logger (length fs) w1 = (Returned, foldl (λ w0 f, turn logger f w0) w1 fs)
  ∧ ready (sched (foldl (λ w0 f, turn logger f w0) w1 fs)) = []
  ∧ stdout (foldl (λ w0 f, turn logger f w0) w1 fs) = [VInt 2; VInt 0; VInt 1].
Proof.
  intros fs w1.
  destruct (drain_fifo logger fs World_init) as (H1 & H2 & H3).
  - reflexivity.
  - intros f w0 Hin. unfold fs in Hin.
    repeat (apply elem_of_cons in Hin as [->|Hin]; [done|]).
    by apply elem_of_nil in Hin.
  - split; [exact H1|]. split; [exact H2|]. split; [exact H3|reflexivity].
Defined.

(** ** The loop of [run], one step at a time *)

Lemma poll_no_io ev s :
  _read_waiting s = ∅ → _write_waiting s = ∅ → sleeping s ≠ [] →
  poll ev s = PollDone (wake_sleeping (ev_now ev) s).
Proof.
  intros Hr Hw Hs. unfold poll, select, select_timeout. rewrite Hr, Hw.
  assert (Hf : ∀ l : list nat, filter (λ fd, is_Some ((∅ : gmap nat callable) !! fd)) l = []).
  { intros l. induction l as [|x l IH]; [done|].
    rewrite filter_cons_False; [done|]. rewrite lookup_empty. by intros [? ?]. }
  rewrite !Hf. destruct (sleeping s) as [|top rest] eqn:Hsl; [done|]. simpl.
  destruct s; simpl in *. by subst.
Qed.

Lemma wake_sleeping_one now rdy e sq rw ww cur :
  wake_sleeping now (mkScheduler rdy [e] sq rw ww cur)
  = if bool_decide (deadline_of e < now)%Z
    then mkScheduler (rdy ++ [func_of e]) [] sq rw ww cur
    else mkScheduler rdy [e] sq rw ww cur.
Proof. unfold wake_sleeping. simpl. by case_bool_decide. Qed.

Lemma heappush_nil e : heappush [] e = [e].
Proof. reflexivity. Qed.

Lemma busy_idle sq cur : busy (mkScheduler [] [] sq ∅ ∅ cur) = false.
Proof. apply busy_false. done. Qed.

Section Steps.

Variable funcs : nat → World → outcome * World.

Lemma drain_nil fuel w :
  ready (sched w) = [] → drain funcs fuel w = (Returned, w).
Proof. intros Hr. destruct fuel; simpl; by rewrite Hr. Qed.

Lemma drain_cons fuel w func rest :
  ready (sched w) = func :: rest →
  drain funcs (S fuel) w =
    match call funcs func (set_sched (set_ready rest (sched w)) w) with
    | (Returns, w') => drain funcs fuel w'
    | (Raises e, w') => (Raised e, w')
    end.
Proof. intros Hr. simpl. by rewrite Hr. Qed.

Lemma run_idle fuel env w :
  busy (sched w) = false → run funcs (S fuel) env w = (Returned, w).
Proof. intros Hb. simpl. by rewrite Hb. Qed.

Lemma run_ready fuel env w :
  ready (sched w) ≠ [] →
  run funcs (S fuel) env w =
    match drain funcs fuel w with
    | (Returned, w') => run funcs fuel env w'
    | (r, w') => (r, w')
    end.
Proof.
  intros Hr. cbn [run].
  assert (Hb : busy (sched w) = true).
  { unfold busy. by rewrite (bool_decide_eq_true_2 _ Hr). }
  rewrite Hb. unfold iteration.
  destruct (ready (sched w)); [done|].
  by destruct (drain funcs fuel w) as [[| | |] w'].
Qed.

Lemma run_timer fuel ev env w :
  ready (sched w) = [] → sleeping (sched w) ≠ [] →
  _read_waiting (sched w) = ∅ → _write_waiting (sched w) = ∅ →
  run funcs (S fuel) (ev :: env) w =
    match drain funcs fuel
            (set_clock (ev_now ev) (set_sched (wake_sleeping (ev_now ev) (sched w)) w)) with
    | (Returned, w') => run funcs fuel env w'
    | (r, w') => (r, w')
    end.
Proof.
  intros Hr Hs Hrw Hww. cbn [run].
  assert (Hb : busy (sched w) = true).
  { unfold busy. rewrite (bool_decide_eq_true_2 _ Hs). by rewrite orb_true_r. }
  rewrite Hb. unfold iteration. rewrite Hr, poll_no_io by done.
  by destruct (drain funcs fuel _) as [[| | |] w'].
Qed.

End Steps.

(** ** The callback programs [countdown] and [countup] *)

Lemma countdown_pending (m : nat) :
  ∀ (env : list event) sq cur qu tk ck out,
    m < length env → timely 4 ck env →
    run countdown (S (S (S m))) env
      (mkWorld (mkScheduler [] [((ck + 4)%Z, sq, FuncRef m)] sq ∅ ∅ cur) qu tk ck out)
    = (Returned,
       mkWorld (mkScheduler [] [] (sq + m) ∅ ∅ cur) qu tk
         (clock_after (S m) ck env) (out ++ downs m)).
Proof.
  induction m as [|m IH]; intros env sq cur qu tk ck out Hlen Htime;
    destruct env as [|ev env]; simpl in Hlen; try lia; destruct Htime as [Hev Htime];
    rewrite run_timer by done; cbn [sched]; rewrite wake_sleeping_one;
    rewrite bool_decide_eq_true_2 by done;
    erewrite drain_cons by reflexivity;
    cbn [call countdown app func_of snd fst set_clock set_sched set_ready sched q tasks
         clock stdout];
    rewrite drain_nil by reflexivity.
  - rewrite run_idle by apply busy_idle. unfold clock_after.
    cbn [take last fmap option_fmap option_map default downs].
    by rewrite Nat.add_0_r, app_nil_r.
  - unfold call_later.
    cbn [set_ready ready sleeping sequence _read_waiting _write_waiting current].
    rewrite heappush_nil, IH by (done || lia).
    f_equal. f_equal.
    + f_equal. lia.
    + unfold clock_after. destruct env as [|ev2 env]; [simpl in Hlen; lia|].
      change (take (S (S m)) (ev :: ev2 :: env)) with (ev :: take (S m) (ev2 :: env)).
      change (take (S m) (ev2 :: env)) with (ev2 :: take m env).
      rewrite !last_cons. by destruct (last (take m env)).
    + cbn [downs]. by rewrite <-app_assoc.
Qed.

(** X14.  [countdown(n)] under [run], with nothing else scheduled: when the
    host lets each [select] return after the pending deadline, [run]
    prints [Down n], [Down n-1], ..., [Down 1], four time units apart, and
    then returns; it has made [n] calls of [call_later] and [n] calls of
    [select], and leaves every queue of the scheduler empty.  For [n = 0]
    nothing is printed and nothing is scheduled. *)
Theorem countdown_counts_down (n : nat) (env : list event) sq cur qu tk ck out fuel :
  n ≤ length env → timely 4 ck env → n + 3 ≤ fuel →
  run countdown fuel env
    (mkWorld (mkScheduler [FuncRef n] [] sq ∅ ∅ cur) qu tk ck out)
  = (Returned,
     mkWorld (mkScheduler [] [] (sq + n) ∅ ∅ cur) qu tk (clock_after n ck env)
       (out ++ downs n)).
Proof.
  intros Hlen Htime Hfuel.
  replace fuel with (n + 3 + (fuel - (n + 3))) by lia.
  apply run_fuel_mono; [|done].
  replace (n + 3) with (S (S (S n))) by lia.
  rewrite run_ready by done.
  erewrite drain_cons by reflexivity.
  destruct n as [|m].
  - cbn [call countdown]. rewrite drain_nil by reflexivity.
    rewrite run_idle by apply busy_idle.
    unfold clock_after. cbn [take last fmap option_fmap option_map default downs].
    by rewrite Nat.add_0_r, app_nil_r.
  - cbn [call countdown set_sched set_ready sched q tasks clock stdout].
    rewrite drain_nil by reflexivity. unfold call_later.
    cbn [set_ready ready sleeping sequence _read_waiting _write_waiting current].
    rewrite heappush_nil.
    rewrite countdown_pending by (done || lia).
    f_equal. f_equal.
    + f_equal. lia.
    + cbn [downs]. by rewrite <-app_assoc.
Qed.

Lemma countdown_counts_down_witness :
  let env := [mkEvent 0 [] [] 5; mkEvent 5 [] [] 10; mkEvent 10 [] [] 15] in
  run countdown 6 env
    (set_sched (call_soon (FuncRef 3) Scheduler_init) World_init)
  = (Returned,
     mkWorld (mkScheduler [] [] 3 ∅ ∅ PyNone) AsyncQueue_init [] 15
       [VStr "Down 3"; VStr "Down 2"; VStr "Down 1"]).
Proof.
  intros env.
  apply (countdown_counts_down 3 env 0 PyNone AsyncQueue_init [] 0%Z [] 6).
  - simpl. lia.
  - simpl. lia.
  - lia.
Defined.

Lemma _run_stop stop x w : ¬ x < stop → _run stop x w = (Returns, w).
Proof. intros H. unfold _run. by rewrite decide_False. Qed.

Lemma _run_go stop x w :
  x < stop →
  _run stop x w =
    (Returns,
     mkWorld (call_later (clock w) 1 (FuncRef (S x)) (sched w)) (q w) (tasks w) (clock w)
       (stdout w ++ [VStr ("Up " +:+ pretty x)])).
Proof. intros H. unfold _run. by rewrite decide_True. Qed.

Lemma countup_pending (k : nat) :
  ∀ stop x (env : list event) sq cur qu tk ck out,
    x + k = stop → k < length env → timely 1 ck env →
    run (_run stop) (S (S (S k))) env
      (mkWorld (mkScheduler [] [((ck + 1)%Z, sq, FuncRef x)] sq ∅ ∅ cur) qu tk ck out)
    = (Returned,
       mkWorld (mkScheduler [] [] (sq + k) ∅ ∅ cur) qu tk
         (clock_after (S k) ck env) (out ++ ups k x)).
Proof.
  induction k as [|k IH]; intros stop x env sq cur qu tk ck out Hstop Hlen Htime;
    destruct env as [|ev env]; simpl in Hlen; try lia; destruct Htime as [Hev Htime];
    rewrite run_timer by done; cbn [sched]; rewrite wake_sleeping_one;
    rewrite bool_decide_eq_true_2 by done;
    erewrite drain_cons by reflexivity;
    cbn [call app func_of snd fst set_clock set_sched set_ready sched q tasks
         clock stdout].
  - rewrite _run_stop by lia. rewrite drain_nil by reflexivity.
    rewrite run_idle by apply busy_idle. unfold clock_after.
    cbn [take last fmap option_fmap option_map default ups].
    by rewrite Nat.add_0_r, app_nil_r.
  - rewrite _run_go by lia.
    cbn [set_clock set_sched set_ready sched q tasks clock stdout].
    rewrite drain_nil by reflexivity. unfold call_later.
    cbn [set_ready ready sleeping sequence _read_waiting _write_waiting current].
    rewrite heappush_nil, (IH stop (S x)) by (done || lia).
    f_equal. f_equal.
    + f_equal. lia.
    + unfold clock_after. destruct env as [|ev2 env]; [simpl in Hlen; lia|].
      change (take (S (S k)) (ev :: ev2 :: env)) with (ev :: take (S k) (ev2 :: env)).
      change (take (S k) (ev2 :: env)) with (ev2 :: take k env).
      rewrite !last_cons. by destruct (last (take k env)).
    + cbn [ups]. by rewrite <-app_assoc.
Qed.

(** X15.  [countup(stop)] under [run], with nothing else scheduled:
    [_run(x)] for [x] up to [stop], in particular [countup(stop)], which is
    [_run(0)].  When the host lets each [select] return after the pending
    deadline, [run] prints [Up x], [Up x+1], ..., [Up stop-1], one time
    unit apart, and then returns; the last timer fires once more, finds
    [x = stop] and schedules nothing, so [run] has made [stop - x] calls of
    [call_later] and as many of [select]. *)
Theorem countup_counts_up (stop x : nat) (env : list event) sq cur qu tk ck out fuel :
  x ≤ stop → stop - x ≤ length env → timely 1 ck env → stop - x + 3 ≤ fuel →
  run (_run stop) fuel env
    (mkWorld (mkScheduler [FuncRef x] [] sq ∅ ∅ cur) qu tk ck out)
  = (Returned,
     mkWorld (mkScheduler [] [] (sq + (stop - x)) ∅ ∅ cur) qu tk
       (clock_after (stop - x) ck env) (out ++ ups (stop - x) x)).
Proof.
  intros Hx Hlen Htime Hfuel.
  replace fuel with (stop - x + 3 + (fuel - (stop - x + 3))) by lia.
  apply run_fuel_mono; [|done].
  replace (stop - x + 3) with (S (S (S (stop - x)))) by lia.
  rewrite run_ready by done.
  erewrite drain_cons by reflexivity.
  cbn [call set_sched set_ready sched q tasks clock stdout].
  destruct (stop - x) as [|k] eqn:Hk.
  - rewrite _run_stop by lia. rewrite drain_nil by reflexivity.
    rewrite run_idle by apply busy_idle.
    unfold clock_after. cbn [take last fmap option_fmap option_map default ups].
    by rewrite Nat.add_0_r, app_nil_r.
  - rewrite _run_go by lia.
    cbn [set_sched set_ready sched q tasks clock stdout].
    rewrite drain_nil by reflexivity. unfold call_later.
    cbn [set_ready ready sleeping sequence _read_waiting _write_waiting current].
    rewrite heappush_nil.
    rewrite (countup_pending k stop (S x)) by (done || lia).
    f_equal. f_equal.
    + f_equal. lia.
    + cbn [ups]. by rewrite <-app_assoc.
Qed.

Lemma countup_counts_up_witness :
  let env := [mkEvent 0 [] [] 2; mkEvent 2 [] [] 4; mkEvent 4 [] [] 6] in
  run (_run 3) 6 env
    (set_sched (call_soon (FuncRef 0) Scheduler_init) World_init)
  = (Returned,
     mkWorld (mkScheduler [] [] 3 ∅ ∅ PyNone) AsyncQueue_init [] 6
       [VStr "Up 0"; VStr "Up 1"; VStr "Up 2"]).
Proof.
  intros env.
  apply (countup_counts_up 3 0 env 0 PyNone AsyncQueue_init [] 0%Z [] 6).
  - lia.
  - simpl. lia.
  - simpl. lia.
  - lia.
Defined.

(** ** The producer and the consumer *)

Lemma pretty_Z_of_nat (n : nat) : pretty (Z.of_nat n) = pretty n.
Proof. by destruct n. Qed.

Lemma producer_step n l b sq cur ck out :
  Task_call 0
    (mkWorld (mkScheduler [] [] sq ∅ ∅ cur) (mkAsyncQueue [] [TaskRef 1] false)
       [Suspended (producer_from n (S l)); Suspended (consumer b)] ck out)
  = (Returns,
     mkWorld (mkScheduler [TaskRef 1] [((ck + 1)%Z, sq + 1, TaskRef 0)] (sq + 1) ∅ ∅ PyNone)
       (mkAsyncQueue [VInt (Z.of_nat n)] [] false)
       [Suspended (producer_from (S n) l); Suspended (consumer b)] ck
       (out ++ [VStr ("Producing " +:+ pretty n)])).
Proof. reflexivity. Qed.

Lemma consumer_step n p b sl sq cur ck out :
  Task_call 1
    (mkWorld (mkScheduler [] sl sq ∅ ∅ cur) (mkAsyncQueue [VInt (Z.of_nat n)] [] false)
       [p; Suspended (consumer (S (S b)))] ck out)
  = (Returns,
     mkWorld (mkScheduler [] sl sq ∅ ∅ PyNone) (mkAsyncQueue [] [TaskRef 1] false)
       [p; Suspended (consumer (S b))] ck
       (out ++ [VStr ("Consuming " +:+ pretty (Z.of_nat n))])).
Proof. reflexivity. Qed.

Lemma producer_done n b sq cur ck out :
  Task_call 0
    (mkWorld (mkScheduler [] [] sq ∅ ∅ cur) (mkAsyncQueue [] [TaskRef 1] false)
       [Suspended (producer_from n 0); Suspended (consumer b)] ck out)
  = (Returns,
     mkWorld (mkScheduler [TaskRef 1] [] sq ∅ ∅ (TaskRef 0)) (mkAsyncQueue [] [] true)
       [Finished; Suspended (consumer b)] ck
       (out ++ [VStr "Producer done"])).
Proof. reflexivity. Qed.

Lemma consumer_done p b sq cur ck out :
  Task_call 1
    (mkWorld (mkScheduler [] [] sq ∅ ∅ cur) (mkAsyncQueue [] [] true)
       [p; Suspended (consumer (S b))] ck out)
  = (Returns,
     mkWorld (mkScheduler [] [] sq ∅ ∅ (TaskRef 1)) (mkAsyncQueue [] [] true)
       [p; Finished] ck
       (out ++ [VStr "Consuming done"])).
Proof. reflexivity. Qed.

Lemma producer_first n l b sq cur ck out :
  Task_call 0
    (mkWorld (mkScheduler [TaskRef 1] [] sq ∅ ∅ cur) (mkAsyncQueue [] [] false)
       [Suspended (producer_from n (S l)); Suspended (consumer b)] ck out)
  = (Returns,
     mkWorld (mkScheduler [TaskRef 1] [((ck + 1)%Z, sq + 1, TaskRef 0)] (sq + 1) ∅ ∅ PyNone)
       (mkAsyncQueue [VInt (Z.of_nat n)] [] false)
       [Suspended (producer_from (S n) l); Suspended (consumer b)] ck
       (out ++ [VStr ("Producing " +:+ pretty n)])).
Proof. reflexivity. Qed.

Lemma producer_first_done n b sq cur ck out :
  Task_call 0
    (mkWorld (mkScheduler [TaskRef 1] [] sq ∅ ∅ cur) (mkAsyncQueue [] [] false)
       [Suspended (producer_from n 0); Suspended (consumer b)] ck out)
  = (Returns,
     mkWorld (mkScheduler [TaskRef 1] [] sq ∅ ∅ (TaskRef 0)) (mkAsyncQueue [] [] true)
       [Finished; Suspended (consumer b)] ck
       (out ++ [VStr "Producer done"])).
Proof. reflexivity. Qed.

Ltac world_step :=
  cbv [call func_of snd fst set_clock set_sched set_ready sched q tasks clock stdout
       ready sleeping sequence _read_waiting _write_waiting current];
  cbn [app].

Section ProducerConsumer.

Variable funcs : nat → World → outcome * World.

Lemma producer_consumer_pending (l : nat) :
  ∀ n b (env : list event) sq ck out,
    l ≤ b → l < length env → timely 1 ck env →
    run funcs (S (S (S l))) env
      (mkWorld (mkScheduler [] [((ck + 1)%Z, sq, TaskRef 0)] sq ∅ ∅ PyNone)
         (mkAsyncQueue [] [TaskRef 1] false)
         [Suspended (producer_from n l); Suspended (consumer (S b))] ck out)
    = (Returned,
       mkWorld (mkScheduler [] [] (sq + l) ∅ ∅ (TaskRef 1)) (mkAsyncQueue [] [] true)
         [Finished; Finished] (clock_after (S l) ck env)
         (out ++ produced n l ++ [VStr "Producer done"; VStr "Consuming done"])).
Proof.
  induction l as [|l IH]; intros n b env sq ck out Hb Hlen Htime;
    destruct env as [|ev env]; simpl in Hlen; try lia; destruct Htime as [Hev Htime];
    rewrite run_timer by done; cbn [sched]; rewrite wake_sleeping_one;
    rewrite bool_decide_eq_true_2 by done;
    erewrite drain_cons by reflexivity;
    world_step.
  - rewrite producer_done.
    erewrite drain_cons by reflexivity.
    world_step.
    rewrite consumer_done, drain_nil by reflexivity.
    rewrite run_idle by apply busy_idle. unfold clock_after.
    cbn [take last fmap option_fmap option_map default produced app].
    by rewrite Nat.add_0_r, <-app_assoc.
  - destruct b as [|b]; [lia|].
    rewrite producer_step.
    erewrite drain_cons by reflexivity.
    world_step.
    rewrite consumer_step, drain_nil by reflexivity.
    rewrite IH by (done || lia).
    f_equal. f_equal.
    + f_equal. lia.
    + unfold clock_after. destruct env as [|ev2 env]; [simpl in Hlen; lia|].
      change (take (S (S l)) (ev :: ev2 :: env)) with (ev :: take (S l) (ev2 :: env)).
      change (take (S l) (ev2 :: env)) with (ev2 :: take l env).
      rewrite !last_cons. by destruct (last (take l env)).
    + cbn [produced]. rewrite pretty_Z_of_nat, <-!app_assoc. done.
Qed.

(** X16.  Producer and consumer under [run].  With [producer(q, count)]
    and [consumer(q)] as the two tasks, in this order, and every [select]
    returning after the pending deadline, [run] prints [Producing 0],
    [Consuming 0], ..., [Producing count-1], [Consuming count-1],
    [Producer done], [Consuming done] and returns: every item is consumed
    before the next one is produced, the consumer learns of the closure
    through [QueueClosed], both coroutines finish, the queue ends closed
    and empty with nobody waiting, and the scheduler has made [count]
    calls of [call_later]. *)
Theorem producer_consumer_run (count bound : nat) (env : list event) sq cur ck out fuel :
  count < bound → count ≤ length env → timely 1 ck env → count + 3 ≤ fuel →
  run funcs fuel env
    (mkWorld (mkScheduler [TaskRef 0; TaskRef 1] [] sq ∅ ∅ cur) (mkAsyncQueue [] [] false)
       [Suspended (producer count); Suspended (consumer bound)] ck out)
  = (Returned,
     mkWorld (mkScheduler [] [] (sq + count) ∅ ∅ (TaskRef 1)) (mkAsyncQueue [] [] true)
       [Finished; Finished] (clock_after count ck env)
       (out ++ produced 0 count ++ [VStr "Producer done"; VStr "Consuming done"])).
Proof.
  intros Hb Hlen Htime Hfuel.
  replace fuel with (count + 3 + (fuel - (count + 3))) by lia.
  apply run_fuel_mono; [|done].
  replace (count + 3) with (S (S (S count))) by lia.
  destruct bound as [|b]; [lia|].
  rewrite run_ready by done.
  erewrite drain_cons by reflexivity.
  world_step.
  unfold producer.
  destruct count as [|l].
  - rewrite producer_first_done.
    erewrite drain_cons by reflexivity.
    world_step.
    rewrite consumer_done, drain_nil by reflexivity.
    rewrite run_idle by apply busy_idle. unfold clock_after.
    cbn [take last fmap option_fmap option_map default produced app].
    by rewrite Nat.add_0_r, <-app_assoc.
  - destruct b as [|b]; [lia|].
    rewrite producer_first.
    erewrite drain_cons by reflexivity.
    world_step.
    rewrite consumer_step, drain_nil by reflexivity.
    rewrite producer_consumer_pending by (done || lia).
    f_equal. f_equal.
    + f_equal. lia.
    + cbn [produced]. rewrite pretty_Z_of_nat, <-!app_assoc. done.
Qed.

End ProducerConsumer.

Lemma producer_consumer_run_witness :
  let env := [mkEvent 0 [] [] 2; mkEvent 2 [] [] 4] in
  run no_funcs 5 env (new_task (consumer 3) (new_task (producer 2) World_init))
  = (Returned,
     mkWorld (mkScheduler [] [] 2 ∅ ∅ (TaskRef 1)) (mkAsyncQueue [] [] true)
       [Finished; Finished] 4
       [VStr "Producing 0"; VStr "Consuming 0"; VStr "Producing 1"; VStr "Consuming 1";
        VStr "Producer done"; VStr "Consuming done"]).
Proof.
  intros env.
  apply (producer_consumer_run no_funcs 2 3 env 0 PyNone 0%Z [] 5).
  - lia.
  - simpl. lia.
  - simpl. lia.
  - lia.
Defined.
